(** * MotionTemporal.hlsl (MOTION TAA v2): the compute kernel [CSMain]

    The repository's script writes one HLSL compute shader,
    [MotionTemporal.hlsl].  This development embeds that shader's kernel
    [CSMain] and proves the properties its specification lists.

    The kernel computes on GPU [float]s.  Its control flow does not depend
    on what a float is, so the kernel is written once over an interface
    [FloatOps] of the scalar operations it uses, and read at two instances:
    - [R_ops], exact real arithmetic, for the properties that need
      arithmetic laws;
    - [b32_ops], IEEE-754 binary32 (Stdlib's [SpecFloat] at precision 24),
      which evaluates, for concrete runs.
    Properties that hold by control flow alone are proved for every
    instance of the interface. *)

From Stdlib Require Import ZArith QArith Qreals Reals Lra Lia List.
From Stdlib Require Import Floats.SpecFloat.
From stdpp Require Import base option list gmap.
From Stdlib Require Import Ascii String.
From stdpp Require Import strings.

Local Open Scope Z_scope.

(** ** 32-bit integers

    [uint] and [int] values are kept in [Z]; the wrap-around of each
    operation is written where it happens. *)

Definition wrap_u32 (z : Z) : Z := z mod 2 ^ 32.

(** Reinterpretation of a 32-bit pattern as a signed [int]. *)
Definition wrap_s32 (z : Z) : Z := (z + 2 ^ 31) mod 2 ^ 32 - 2 ^ 31.

Definition INT_MAX : Z := 2 ^ 31 - 1.

(** [uint + int]: the [int] operand is converted to [uint], the sum wraps. *)
Definition uint_add_int (u i : Z) : Z := wrap_u32 (u + wrap_u32 i).

(** The intrinsic [clamp] on [int]: [min(max(v, lo), hi)]. *)
Definition clampi (v lo hi : Z) : Z := Z.min (Z.max v lo) hi.

(** ** Scalars *)

Class FloatOps (F : Type) : Type := {
  fadd : F -> F -> F;
  fsub : F -> F -> F;
  fmul : F -> F -> F;
  fdiv : F -> F -> F;
  flt : F -> F -> bool;
  fmin : F -> F -> F;
  fmax : F -> F -> F;
  fsqrt : F -> F;
  ffloor : F -> Z;
  of_int : Z -> F;
  flit : Q -> F
}.

Arguments flit {F _} _%_Q.

Declare Scope float_scope.
Delimit Scope float_scope with fl.
Infix "+" := fadd : float_scope.
Infix "-" := fsub : float_scope.
Infix "*" := fmul : float_scope.
Infix "/" := fdiv : float_scope.
Infix "<?" := flt : float_scope.
Notation "a >? b" := (flt b a) : float_scope.

(** ** Textures, samplers and the bound resources *)

Record Texture2D (T : Type) : Type := {
  tex_width : Z;
  tex_height : Z;
  texel : Z -> Z -> T
}.
Arguments tex_width {T} _.
Arguments tex_height {T} _.
Arguments texel {T} _ _ _.

Definition GetDimensions {T} (t : Texture2D T) : Z * Z :=
  (tex_width t, tex_height t).

Definition in_range (w h : Z) (p : Z * Z) : bool :=
  (0 <=? p.1) && (p.1 <? w) && (0 <=? p.2) && (p.2 <? h).

(** A texel fetch that reports an address outside the texture. *)
Definition Load_opt {T} (t : Texture2D T) (p : Z * Z) : option T :=
  if in_range (tex_width t) (tex_height t) p
  then Some (texel t p.1 p.2) else None.

(** [Texture2D.Load]: an address outside the texture reads as zero. *)
Definition Load {T} (zero : T) (t : Texture2D T) (p : Z * Z) : T :=
  default zero (Load_opt t p).

Definition channel {A B} (f : A -> B) (t : Texture2D A) : Texture2D B :=
  {| tex_width := tex_width t; tex_height := tex_height t;
     texel := fun x y => f (texel t x y) |}.

(** A sampler state is bound by the host; the kernel only calls it. *)
Record SamplerState (F : Type) : Type := {
  sample : Texture2D F -> F * F -> Z -> F
}.
Arguments sample {F} _ _ _ _.

Section Kernel.
Context {F : Type} `{FloatOps F}.

Local Open Scope float_scope.

Definition float2 : Type := (F * F)%type.

Definition add2 (a b : float2) : float2 := (a.1 + b.1, a.2 + b.2).
Definition sub2 (a b : float2) : float2 := (a.1 - b.1, a.2 - b.2).
Definition mul2 (a b : float2) : float2 := (a.1 * b.1, a.2 * b.2).
Definition scale2 (a : float2) (s : F) : float2 := (a.1 * s, a.2 * s).
Definition min2 (a b : float2) : float2 := (fmin a.1 b.1, fmin a.2 b.2).
Definition max2 (a b : float2) : float2 := (fmax a.1 b.1, fmax a.2 b.2).

(** The intrinsics [clamp], [lerp], [dot] and [length]. *)
Definition clamp (v lo hi : F) : F := fmin (fmax v lo) hi.
Definition clamp2 (v lo hi : float2) : float2 := min2 (max2 v lo) hi.
Definition lerp (a b t : F) : F := a + (b - a) * t.
Definition lerp2 (a b : float2) (t : F) : float2 := add2 a (scale2 (sub2 b a) t).
Definition dot (a b : float2) : F := a.1 * b.1 + a.2 * b.2.
Definition length (v : float2) : F := fsqrt (dot v v).

Definition zero2 : float2 := (flit 0, flit 0).

Definition SampleLevel (t : Texture2D F) (s : SamplerState F)
    (uv : float2) (lod : Z) : F :=
  sample s t uv lod.

(** A two-channel texture is filtered channel by channel. *)
Definition SampleLevel2 (t : Texture2D float2) (s : SamplerState F)
    (uv : float2) (lod : Z) : float2 :=
  (SampleLevel (channel fst t) s uv lod, SampleLevel (channel snd t) s uv lod).

(** [cbuffer TemporalCB]. *)
Record TemporalCB : Type := {
  historyWeight : F;
  confInfluence : F;
  resetHistory : Z;
  pad : F
}.

(** The shader's read-only bindings, [t0]..[t5], [s0] and [b0]. *)
Record Resources : Type := {
  MotionCurr : Texture2D float2;
  ConfCurr : Texture2D F;
  MotionHistory : Texture2D float2;
  ConfHistory : Texture2D F;
  LumaPrev : Texture2D F;
  LumaCurr : Texture2D F;
  LinearClamp : SamplerState F;
  cbuf : TemporalCB
}.

(** The two [RWTexture2D] outputs, [u0] and [u1], as the texels written. *)
Record Outputs : Type := {
  MotionOut : gmap (Z * Z) float2;
  ConfOut : gmap (Z * Z) F
}.

Definition store (o : Outputs) (id : Z * Z) (m : float2) (c : F) : Outputs :=
  {| MotionOut := <[id := m]> (MotionOut o);
     ConfOut := <[id := c]> (ConfOut o) |}.

(** *** The locals of [CSMain], in the order the kernel computes them *)

Definition texelSize (r : Resources) : float2 :=
  let '(width, height) := GetDimensions (MotionCurr r) in
  (flit 1 / of_int width, flit 1 / of_int height).

Definition uv (r : Resources) (id : Z * Z) : float2 :=
  mul2 (of_int id.1 + flit 0.5, of_int id.2 + flit 0.5) (texelSize r).

(** [int3(id.xy, 0)]. *)
Definition to_int2 (id : Z * Z) : Z * Z := (wrap_s32 id.1, wrap_s32 id.2).

Definition currMotion (r : Resources) (id : Z * Z) : float2 :=
  Load zero2 (MotionCurr r) (to_int2 id).

Definition currConf (r : Resources) (id : Z * Z) : F :=
  Load (flit 0) (ConfCurr r) (to_int2 id).

(** The pairs [(x, y)] of the two unrolled loops, [y] outermost. *)
Definition offsets : list (Z * Z) :=
  y ← [-1; 0; 1]%Z; x ← [-1; 0; 1]%Z; [(x, y)].

(** [nPos] after its clamp, for the loop counters [o = (x, y)]. *)
Definition nPos (width height : Z) (id o : Z * Z) : Z * Z :=
  let n := (wrap_s32 (uint_add_int id.1 o.1), wrap_s32 (uint_add_int id.2 o.2)) in
  (clampi n.1 0 (wrap_s32 (wrap_u32 (width - 1))),
   clampi n.2 0 (wrap_s32 (wrap_u32 (height - 1)))).

(** The addresses the loop nest loads from, in order. *)
Definition neighborhoodReads (width height : Z) (id : Z * Z) : list (Z * Z) :=
  map (nPos width height id) offsets.

(** The loop nest: [(minMotion, maxMotion)] after the last iteration. *)
Definition neighborhood (mc : Texture2D float2) (id : Z * Z) : float2 * float2 :=
  let '(width, height) := GetDimensions mc in
  let c := Load zero2 mc (to_int2 id) in
  fold_left
    (fun (acc : float2 * float2) (p : Z * Z) =>
       let nMotion := Load zero2 mc p in
       (min2 acc.1 nMotion, max2 acc.2 nMotion))
    (neighborhoodReads width height id) (c, c).

Definition minMotion (r : Resources) (id : Z * Z) : float2 :=
  (neighborhood (MotionCurr r) id).1.
Definition maxMotion (r : Resources) (id : Z * Z) : float2 :=
  (neighborhood (MotionCurr r) id).2.

Definition historyUV (r : Resources) (id : Z * Z) : float2 :=
  sub2 (uv r id) (mul2 (currMotion r id) (texelSize r)).

(** The test of the [if] that clears [validHistory]. *)
Definition offscreen (p : float2) : bool :=
  (p.1 <? flit 0) || (p.2 <? flit 0) || (p.1 >? flit 1) || (p.2 >? flit 1).

Definition validHistory (r : Resources) (id : Z * Z) : bool :=
  let validHistory := resetHistory (cbuf r) =? 0 in
  if offscreen (historyUV r id) then false else validHistory.

Definition historyMotion (r : Resources) (id : Z * Z) : float2 :=
  SampleLevel2 (MotionHistory r) (LinearClamp r) (historyUV r id) 0.

Definition historyConf (r : Resources) (id : Z * Z) : F :=
  SampleLevel (ConfHistory r) (LinearClamp r) (historyUV r id) 0.

Definition clampedHistory (r : Resources) (id : Z * Z) : float2 :=
  clamp2 (historyMotion r id) (minMotion r id) (maxMotion r id).

Definition diffLen (r : Resources) (id : Z * Z) : F :=
  length (sub2 (clampedHistory r id) (currMotion r id)).

Definition alpha (r : Resources) (id : Z * Z) : F :=
  let alpha := flit 0.94 in
  let alpha := if diffLen r id >? flit 2.0 then flit 0.8 else alpha in
  let alpha := if diffLen r id >? flit 10.0 then flit 0.5 else alpha in
  let alpha := if currConf r id >? flit 0.9 then alpha * flit 0.9 else alpha in
  let alpha := if historyConf r id <? flit 0.2 then flit 0.0 else alpha in
  alpha.

(** [finalMotion] as the [lerp] leaves it, before the anti-jitter test. *)
Definition blendedMotion (r : Resources) (id : Z * Z) : float2 :=
  lerp2 (currMotion r id) (clampedHistory r id) (alpha r id).

Definition finalConf (r : Resources) (id : Z * Z) : F :=
  lerp (currConf r id) (historyConf r id) (alpha r id).

(** [finalMotion] as it is written. *)
Definition finalMotion (r : Resources) (id : Z * Z) : float2 :=
  if length (blendedMotion r id) <? flit 0.1 then zero2 else blendedMotion r id.

(** One invocation of the kernel at [SV_DispatchThreadID.xy = id]; the
    kernel never reads [id.z]. *)
Definition CSMain (r : Resources) (id : Z * Z) (o : Outputs) : Outputs :=
  let '(width, height) := GetDimensions (MotionCurr r) in
  if (width <=? id.1)%Z || (height <=? id.2)%Z then o
  else if negb (validHistory r id) then store o id (currMotion r id) (currConf r id)
  else store o id (finalMotion r id) (finalConf r id).

(** The pair an in-bounds invocation writes. *)
Definition shade (r : Resources) (id : Z * Z) : float2 * F :=
  if negb (validHistory r id) then (currMotion r id, currConf r id)
  else (finalMotion r id, finalConf r id).

(** *** The dispatch and the frame loop

    [numthreads(16, 16, 1)]: a dispatch of [gx] by [gy] groups runs the
    kernel once for each thread id below [(16 gx, 16 gy)].  The host owns
    the group counts and the feedback of one frame's output into the next
    frame's history. *)

Definition threads (gx gy : Z) : list (Z * Z) :=
  y ← seqZ 0 (16 * gy); x ← seqZ 0 (16 * gx); [(x, y)].

Definition Dispatch (r : Resources) (gx gy : Z) (o : Outputs) : Outputs :=
  foldl (fun o id => CSMain r id o) o (threads gx gy).

Definition no_output : Outputs := {| MotionOut := ∅; ConfOut := ∅ |}.

(** An output grid read back as a texture of the given size. *)
Definition as_texture {T} (zero : T) (w h : Z) (m : gmap (Z * Z) T) : Texture2D T :=
  {| tex_width := w; tex_height := h;
     texel := fun x y => default zero (m !! (x, y)) |}.

(** One frame: dispatch over fresh outputs, then bind the outputs as the
    history of the next frame. *)
Definition frame (gx gy : Z) (r : Resources) : Resources :=
  let '(w, h) := GetDimensions (MotionCurr r) in
  let o := Dispatch r gx gy no_output in
  {| MotionCurr := MotionCurr r; ConfCurr := ConfCurr r;
     MotionHistory := as_texture zero2 w h (MotionOut o);
     ConfHistory := as_texture (flit 0) w h (ConfOut o);
     LumaPrev := LumaPrev r; LumaCurr := LumaCurr r;
     LinearClamp := LinearClamp r; cbuf := cbuf r |}.

(** The same bindings with other history textures. *)
Definition with_history (r : Resources) (mh : Texture2D float2)
    (ch : Texture2D F) : Resources :=
  {| MotionCurr := MotionCurr r; ConfCurr := ConfCurr r;
     MotionHistory := mh; ConfHistory := ch;
     LumaPrev := LumaPrev r; LumaCurr := LumaCurr r;
     LinearClamp := LinearClamp r; cbuf := cbuf r |}.

(** Agreement of two bindings on everything the kernel reads. *)
Definition same_read_inputs (r1 r2 : Resources) : Prop :=
  MotionCurr r1 = MotionCurr r2 /\ ConfCurr r1 = ConfCurr r2
  /\ MotionHistory r1 = MotionHistory r2 /\ ConfHistory r1 = ConfHistory r2
  /\ LinearClamp r1 = LinearClamp r2
  /\ resetHistory (cbuf r1) = resetHistory (cbuf r2).

(** An invocation inside the image. *)
Definition in_bounds (r : Resources) (id : Z * Z) : Prop :=
  (0 <= id.1 < tex_width (MotionCurr r))%Z /\
  (0 <= id.2 < tex_height (MotionCurr r))%Z.

End Kernel.

Arguments float2 : clear implicits.
Arguments TemporalCB : clear implicits.
Arguments Resources F : clear implicits.
Arguments Outputs F : clear implicits.

(** ** The bilinear, edge-clamped filter *)

Section Bilinear.
Context {F : Type} `{FloatOps F}.
Local Open Scope float_scope.

(** Modelled from the spec: the filter behind [SampleLevel] is a device
    intrinsic and not part of the shader; the specification's step 4 asks
    for a bilinear sample with edge-clamped addressing, no wrap-around and
    no extrapolation past the border texel.  Texel centres sit at
    half-integer coordinates. *)
Definition bilinear_clamp (t : Texture2D F) (uv : F * F) (lod : Z) : F :=
  let w := tex_width t in
  let h := tex_height t in
  let px := uv.1 * of_int w - flit 0.5 in
  let py := uv.2 * of_int h - flit 0.5 in
  let x0 := ffloor px in
  let y0 := ffloor py in
  let fx := px - of_int x0 in
  let fy := py - of_int y0 in
  let fetch (x y : Z) := texel t (clampi x 0 (w - 1)) (clampi y 0 (h - 1)) in
  lerp (lerp (fetch x0 y0) (fetch (x0 + 1)%Z y0) fx)
       (lerp (fetch x0 (y0 + 1)%Z) (fetch (x0 + 1)%Z (y0 + 1)%Z) fx)
       fy.

Definition LinearClampState : SamplerState F := {| sample := bilinear_clamp |}.

End Bilinear.

(** ** Exact arithmetic: the reals *)

Definition Rltb (a b : R) : bool := if Rlt_dec a b then true else false.

#[export] Instance R_ops : FloatOps R := {|
  fadd := Rplus; fsub := Rminus; fmul := Rmult; fdiv := Rdiv;
  flt := Rltb; fmin := Rmin; fmax := Rmax; fsqrt := sqrt;
  ffloor := fun x => (up x - 1)%Z;
  of_int := IZR; flit := Q2R
|}.

(** ** IEEE-754 binary32 *)

Module B32.

Definition prec : Z := 24.
Definition emax : Z := 128.

Definition is_nan (x : spec_float) : bool :=
  match x with S754_nan => true | _ => false end.

(** The intrinsics [min] and [max] return the other operand when one is
    a NaN. *)
Definition min (a b : spec_float) : spec_float :=
  if is_nan a then b else if is_nan b then a
  else if SFltb a b then a else b.

Definition max (a b : spec_float) : spec_float :=
  if is_nan a then b else if is_nan b then a
  else if SFltb a b then b else a.

Definition of_int (z : Z) : spec_float := binary_normalize prec emax z 0 false.

(** A decimal literal, rounded to nearest: numerator and denominator of
    the literals used are exact, and the division rounds once. *)
Definition lit (q : Q) : spec_float :=
  SFdiv prec emax (of_int (Qnum q)) (of_int (Zpos (Qden q))).

Definition floor (x : spec_float) : Z :=
  match x with
  | S754_finite s m e => Z.shiftl (cond_Zopp s (Zpos m)) e
  | _ => 0
  end.

End B32.

#[export] Instance b32_ops : FloatOps spec_float := {|
  fadd := SFadd B32.prec B32.emax;
  fsub := SFsub B32.prec B32.emax;
  fmul := SFmul B32.prec B32.emax;
  fdiv := SFdiv B32.prec B32.emax;
  flt := SFltb;
  fmin := B32.min; fmax := B32.max;
  fsqrt := SFsqrt B32.prec B32.emax;
  ffloor := B32.floor;
  of_int := B32.of_int; flit := B32.lit
|}.


(** ** The specification's vocabulary *)

(** Edge-clamped addressing of a coordinate [v] on an axis of [n] texels:
    a coordinate before the first texel reads the first, one after the last
    reads the last. *)
Definition edge (n v : Z) : Z :=
  if v <? 0 then 0 else if n - 1 <? v then n - 1 else v.

(** The current motion at the neighbour [o = (dx, dy)] of a pixel. *)
Definition neighbour {T} (mc : Texture2D T) (id o : Z * Z) : T :=
  texel mc (edge (tex_width mc) (id.1 + o.1)) (edge (tex_height mc) (id.2 + o.2)).

(** The Euclidean distance [|a - b|] of two vectors. *)
Definition distance (a b : R * R) : R :=
  sqrt ((a.1 - b.1) * (a.1 - b.1) + (a.2 - b.2) * (a.2 - b.2)).

(** The blend weight as the specification's step 6 words it. *)
Definition alpha_base {F} `{FloatOps F} (diffLen : F) : F :=
  if flt (flit 10.0) diffLen then flit 0.5
  else if flt (flit 2.0) diffLen then flit 0.8
  else flit 0.94.

Definition alpha_rule {F} `{FloatOps F} (historyConf currConf diffLen : F) : F :=
  if flt historyConf (flit 0.2) then flit 0
  else fmul (alpha_base diffLen) (if flt (flit 0.9) currConf then flit 0.9 else flit 1).

(** A texture that holds [c] at every texel. *)
Definition const_on {T} (t : Texture2D T) (c : T) : Prop :=
  forall x y, 0 <= x < tex_width t -> 0 <= y < tex_height t -> texel t x y = c.

(** A filter that returns weighted means of texels returns [c] on a
    texture that is [c] everywhere. *)
Definition preserves_const {F} (s : SamplerState F) : Prop :=
  forall (t : Texture2D F) (c : F) (uv : F * F) (lod : Z),
    0 < tex_width t -> 0 < tex_height t -> const_on t c -> sample s t uv lod = c.

(** The state of the specification's idempotence property: equally sized
    grids, no motion and full confidence in the current frame and in the
    history, no reset. *)
Definition still (r : Resources R) : Prop :=
  let w := tex_width (MotionCurr r) in
  let h := tex_height (MotionCurr r) in
  (0 < w <= INT_MAX /\ 0 < h <= INT_MAX)
  /\ (GetDimensions (ConfCurr r) = (w, h)
      /\ GetDimensions (MotionHistory r) = (w, h)
      /\ GetDimensions (ConfHistory r) = (w, h))
  /\ (const_on (MotionCurr r) (0%R, 0%R) /\ const_on (ConfCurr r) 1%R)
  /\ (const_on (MotionHistory r) (0%R, 0%R) /\ const_on (ConfHistory r) 1%R)
  /\ resetHistory (cbuf r) = 0.

(** A texture whose texels all lie between [a] and [b]. *)
Definition within (t : Texture2D R) (a b : R) : Prop :=
  forall x y, 0 <= x < tex_width t -> 0 <= y < tex_height t ->
    (a <= texel t x y <= b)%R.

(** A filter that returns weighted means of texels stays within the range
    of the texels. *)
Definition preserves_range (s : SamplerState R) : Prop :=
  forall (t : Texture2D R) (a b : R) (uv : R * R) (lod : Z),
    0 < tex_width t -> 0 < tex_height t -> within t a b ->
    (a <= sample s t uv lod <= b)%R.

(** ** Uniform scenes

    Inputs whose six textures are each one colour; the properties below
    are run on them. *)

Definition const_tex {T} (w h : Z) (c : T) : Texture2D T :=
  {| tex_width := w; tex_height := h; texel := fun _ _ => c |}.

Definition scene {F} `{FloatOps F} (w h : Z) (m : float2 F) (c : F)
    (hm : float2 F) (hc : F) (luma : F) (reset : Z) : Resources F :=
  {| MotionCurr := const_tex w h m; ConfCurr := const_tex w h c;
     MotionHistory := const_tex w h hm; ConfHistory := const_tex w h hc;
     LumaPrev := const_tex w h luma; LumaCurr := const_tex w h luma;
     LinearClamp := LinearClampState;
     cbuf := {| historyWeight := luma; confInfluence := luma;
                resetHistory := reset; pad := flit 0 |} |}.

(** A 4 by 4 frame drifting by a twentieth of a pixel, with a confident
    history that agrees with it. *)
Definition drift_b32 : Resources spec_float :=
  scene 4 4 (flit 0.05, flit 0) (flit 1) (flit 0.05, flit 0) (flit 1) (flit 0) 0.


(** The same frame with other luminance and other reserved constants. *)
Definition drift_b32_luma : Resources spec_float :=
  scene 4 4 (flit 0.05, flit 0) (flit 1) (flit 0.05, flit 0) (flit 1) (flit 0.5) 0.

(** The drifting frame in exact arithmetic, with a history of no
    confidence. *)
Definition creep : Resources R :=
  scene 4 4 (flit 0.05, flit 0) (flit 0.5) (flit 0, flit 0) (flit 0) (flit 0) 0.

(** A frame at rest. *)
Definition rest : Resources R :=
  scene 4 4 (flit 0, flit 0) (flit 1) (flit 0, flit 0) (flit 1) (flit 0) 0.

(** A 3 by 1 frame whose right texel moves by 12 pixels while the other
    two are still, over a uniform history [hm] of full confidence. *)
Definition step_motion {F} `{FloatOps F} : Texture2D (float2 F) :=
  {| tex_width := 3; tex_height := 1;
     texel := fun x _ => if x =? 2 then (flit 12, flit 0) else (flit 0, flit 0) |}.

Definition step_scene {F} `{FloatOps F} (hm : float2 F) : Resources F :=
  {| MotionCurr := step_motion; ConfCurr := const_tex 3 1 (flit 0.5);
     MotionHistory := const_tex 3 1 hm; ConfHistory := const_tex 3 1 (flit 1);
     LumaPrev := const_tex 3 1 (flit 0); LumaCurr := const_tex 3 1 (flit 0);
     LinearClamp := LinearClampState;
     cbuf := {| historyWeight := flit 0; confInfluence := flit 0;
                resetHistory := 0; pad := flit 0 |} |}.

(** A history that the clamp leaves alone, and one that it pulls back. *)
Definition step_near_b32 : Resources spec_float := step_scene (flit 5, flit 0).
Definition step_far_b32 : Resources spec_float := step_scene (flit 20, flit 0).


(** The drifting frame on binary32 with a history of no confidence. *)
Definition creep_b32 : Resources spec_float :=
  scene 4 4 (flit 0.05, flit 0) (flit 0.5) (flit 0, flit 0) (flit 0) (flit 0) 0.

(** ** The script [update_tm.py]

    The script checks that the shader file exists, prints the start of
    what it holds, and overwrites it with the shader text.  The file
    system is a map from paths to nodes; a file holds bytes.  What the
    interpreter and the operating system decide (whether a file may be
    opened, how bytes become text and text becomes bytes) is a parameter
    of the run, the [platform]. *)

Module Script.

Local Open Scope string_scope.

Inductive node : Type :=
| File (content : string)
| Dir.

(** How a run ends before its last statement: [exit(code)], or an
    exception that nothing catches, an [OSError] of [open] or a
    [UnicodeError] of a codec. *)
Inductive halt : Type :=
| Exit (code : Z)
| OSError
| UnicodeError.

Record world : Type := {
  fs : gmap string node;
  stdout : list string
}.

(** A [str]: a sequence of code points. *)
Definition text : Type := list N.

(** The text of an ASCII literal. *)
Definition text_of (s : string) : text :=
  map N_of_ascii (list_ascii_of_string s).

Record platform : Type := {
  (** [open(p, 'r')] succeeds on the file at [p]. *)
  readable : string -> bool;
  (** [open(p, 'w')] succeeds at [p]. *)
  writable : string -> bool;
  (** Reading in text mode: the bytes decoded in the default encoding,
      line ends translated; [None] is a [UnicodeDecodeError]. *)
  decode : string -> option text;
  (** Writing in text mode: line ends translated, the text encoded in the
      default encoding; [None] is a [UnicodeEncodeError]. *)
  encode : text -> option string;
  (** The bytes [print] sends to the standard output for a text; [None]
      is a [UnicodeEncodeError]. *)
  render : text -> option string
}.

(** A statement: it changes the world and returns a value or halts. *)
Definition M (A : Type) : Type := world -> world * (A + halt).

Definition ret {A} (a : A) : M A := fun w => (w, inl a).

Definition bind {A B} (m : M A) (k : A -> M B) : M B :=
  fun w =>
    match m w with
    | (w', inl a) => k a w'
    | (w', inr h) => (w', inr h)
    end.

#[export] Instance M_ret : MRet M := @ret.
#[export] Instance M_bind : MBind M := fun A B k m => bind m k.

(** [print] of an ASCII literal: a line of the standard output. *)
Definition print (s : string) : M unit :=
  fun w => ({| fs := fs w; stdout := stdout w ++ [s] |}, inl tt).

(** [print] of a text computed at run time. *)
Definition print_text (pf : platform) (t : text) : M unit :=
  fun w =>
    match render pf t with
    | Some line => ({| fs := fs w; stdout := stdout w ++ [line] |}, inl tt)
    | None => (w, inr UnicodeError)
    end.

Definition exit (code : Z) : M unit := fun w => (w, inr (Exit code)).

(** [os.path.exists]: true of a file and of a directory. *)
Definition path_exists (p : string) : M bool :=
  fun w => (w, inl (bool_decide (is_Some (fs w !! p)))).

(** [open(p, 'r')] followed by [f.read()]. *)
Definition read_text (pf : platform) (p : string) : M text :=
  fun w =>
    match fs w !! p with
    | Some (File content) =>
        if readable pf p then
          match decode pf content with
          | Some t => (w, inl t)
          | None => (w, inr UnicodeError)
          end
        else (w, inr OSError)
    | _ => (w, inr OSError)
    end.

(** [open(p, 'w')] followed by [f.write(t)]: opening creates or
    truncates the file, writing encodes the text; a text that does not
    encode leaves the file empty. *)
Definition write_text (pf : platform) (p : string) (t : text) : M unit :=
  fun w =>
    match fs w !! p with
    | Some Dir => (w, inr OSError)
    | _ =>
        if writable pf p then
          match encode pf t with
          | Some content =>
              ({| fs := <[p := File content]> (fs w); stdout := stdout w |},
               inl tt)
          | None =>
              ({| fs := <[p := File ""]> (fs w); stdout := stdout w |},
               inr UnicodeError)
          end
        else (w, inr OSError)
    end.

(** The slice [t[:n]]: the first [n] code points. *)
Definition slice_to (n : nat) (t : text) : text := take n t.

Definition dquote : string := String "034"%char EmptyString.

Definition file_path : string :=
  "c:/Users/vfxno/Downloads/2/Frame_interpolation (gaming)/src/shaders/MotionTemporal.hlsl".

Definition new_content : string :=
  "// ============================================================================
// MOTION TAA v2 - Robust Vector Stabilization
// Implements Neighborhood Clamping + Motion Reprojection
// ============================================================================

Texture2D<float2> MotionCurr : register(t0);    // Current Raw/Smoothed Motion (Input)
Texture2D<float> ConfCurr : register(t1);
Texture2D<float2> MotionHistory : register(t2); // Previous Frame's Result (History)
Texture2D<float> ConfHistory : register(t3);
Texture2D<float> LumaPrev : register(t4);
Texture2D<float> LumaCurr : register(t5);

RWTexture2D<float2> MotionOut : register(u0);
RWTexture2D<float> ConfOut : register(u1);

SamplerState LinearClamp : register(s0);

cbuffer TemporalCB : register(b0) {
    float historyWeight;
    float confInfluence;
    int resetHistory;
    float pad;
};

// ============================================================================
// TAA LOGIC
// ============================================================================
[numthreads(16, 16, 1)]
void CSMain(uint3 id : SV_DispatchThreadID) {
    uint width, height;
    MotionCurr.GetDimensions(width, height);
    
    if (id.x >= width || id.y >= height) return;
    
    float2 texelSize = 1.0 / float2(width, height);
    float2 uv = (float2(id.xy) + 0.5) * texelSize;
    
    // ------------------------------------------------------------------------
    // 1. Load Current Data & Build Neighborhood
    // ------------------------------------------------------------------------
    float2 currMotion = MotionCurr.Load(int3(id.xy, 0));
    float currConf = ConfCurr.Load(int3(id.xy, 0));
    
    // Find Min/Max in 3x3 neighborhood for clamping (Bounding Box)
    float2 minMotion = currMotion;
    float2 maxMotion = currMotion;
    
    [unroll]
    for(int y = -1; y <= 1; ++y) {
        [unroll]
        for(int x = -1; x <= 1; ++x) {
            // Sample neighbors (using Point load for exact values)
            int2 nPos = id.xy + int2(x, y);
            nPos = clamp(nPos, int2(0, 0), int2(width-1, height-1));
            float2 nMotion = MotionCurr.Load(int3(nPos, 0));
            
            minMotion = min(minMotion, nMotion);
            maxMotion = max(maxMotion, nMotion);
        }
    }
    
    // ------------------------------------------------------------------------
    // 2. Temporal Reprojection
    // ------------------------------------------------------------------------
    // Use current motion to find where this surface was in the previous frame
    // Motion V points from Prev -> Curr. So PrevPos = CurrPos - V
    float2 historyUV = uv - (currMotion * texelSize);
    
    // Valid history check
    bool validHistory = !resetHistory;
    if (historyUV.x < 0 || historyUV.y < 0 || historyUV.x > 1 || historyUV.y > 1) {
        validHistory = false;
    }
    
    if (!validHistory) {
        MotionOut[id.xy] = currMotion;
        ConfOut[id.xy] = currConf;
        return;
    }
    
    // ------------------------------------------------------------------------
    // 3. Sample History & Clamping
    // ------------------------------------------------------------------------
    float2 historyMotion = MotionHistory.SampleLevel(LinearClamp, historyUV, 0);
    float historyConf = ConfHistory.SampleLevel(LinearClamp, historyUV, 0);
    
    // CLAMP: The history vector must be somewhat similar to local neighbors
    // This removes " ++ dquote ++ "ghost" ++ dquote ++ " vectors from disoccluded objects
    float2 clampedHistory = clamp(historyMotion, minMotion, maxMotion);
    
    // ------------------------------------------------------------------------
    // 4. Adaptive Blending
    // ------------------------------------------------------------------------
    // Base blend: trusting history heavily (0.94) for stability
    float alpha = 0.94;
    
    // Calculate deviation
    float2 diff = clampedHistory - currMotion;
    float diffLen = length(diff);
    
    // If the history (even after clamping) is very different from current,
    // it implies fast acceleration or error. Reduce history trust.
    if (diffLen > 2.0) {
        alpha = 0.8;
    }
    if (diffLen > 10.0) {
        alpha = 0.5;
    }
    
    // Integration of Confidence
    // If current frame is high confidence, we can accept it more readily
    if (currConf > 0.9) {
        alpha *= 0.9; // Allow slightly faster convergence to high-conf input
    }
    
    // If history was low confidence, don't keep it alive
    if (historyConf < 0.2) {
        alpha = 0.0; // Reset
    }
    
    // ------------------------------------------------------------------------
    // 5. Output
    // ------------------------------------------------------------------------
    float2 finalMotion = lerp(currMotion, clampedHistory, alpha);
    float finalConf = lerp(currConf, historyConf, alpha);
    
    // Anti-Jitter for static scenes
    // If result is tiny, kill it to prevent sub-pixel crawling
    if (length(finalMotion) < 0.1) {
        finalMotion = float2(0, 0);
    }
    
    MotionOut[id.xy] = finalMotion;
    ConfOut[id.xy] = finalConf;
}
".

Definition main (pf : platform) : M unit :=
  found ← path_exists file_path;
  (if negb found
   then print ("Error: File not found at " ++ file_path);; exit 1
   else ret tt);;
  content ← read_text pf file_path;
  print_text pf (text_of "Current file start: " ++ slice_to 50 content)%list;;
  write_text pf file_path (text_of new_content);;
  print "Successfully overwrote MotionTemporal.hlsl with TAA v2 logic.".

(** A platform whose encodings are Latin-1 without translation of line
    ends, and on which every file may be opened. *)
Definition latin1_encode (t : text) : option string :=
  if forallb (fun c => (c <? 256)%N) t
  then Some (string_of_list_ascii (map ascii_of_N t))
  else None.

Definition latin1 : platform :=
  {| readable := fun _ => true; writable := fun _ => true;
     decode := fun s => Some (text_of s);
     encode := latin1_encode; render := latin1_encode |}.

End Script.

(** * Properties *)

(** ** What holds by control flow, for every scalar model *)

Section ControlFlow.
Context {F : Type} `{FloatOps F}.
Implicit Types (r : Resources F) (id : Z * Z) (o : Outputs F).

Lemma CSMain_outside r id o :
  (tex_width (MotionCurr r) <= id.1 \/ tex_height (MotionCurr r) <= id.2) ->
  CSMain r id o = o.
Proof.
  intros Hout. unfold CSMain, GetDimensions.
  destruct (Z.leb_spec (tex_width (MotionCurr r)) id.1);
    destruct (Z.leb_spec (tex_height (MotionCurr r)) id.2); simpl; auto; lia.
Qed.

Lemma CSMain_inside r id o :
  id.1 < tex_width (MotionCurr r) -> id.2 < tex_height (MotionCurr r) ->
  CSMain r id o = store o id (shade r id).1 (shade r id).2.
Proof.
  intros Hx Hy. unfold CSMain, GetDimensions, shade.
  destruct (Z.leb_spec (tex_width (MotionCurr r)) id.1); [lia|].
  destruct (Z.leb_spec (tex_height (MotionCurr r)) id.2); [lia|].
  simpl. destruct (validHistory r id); reflexivity.
Qed.

Lemma shade_passthrough r id :
  validHistory r id = false -> shade r id = (currMotion r id, currConf r id).
Proof. intros Hv. unfold shade. rewrite Hv. reflexivity. Qed.

Lemma shade_blend r id :
  validHistory r id = true -> shade r id = (finalMotion r id, finalConf r id).
Proof. intros Hv. unfold shade. rewrite Hv. reflexivity. Qed.


Lemma validHistory_true r id :
  validHistory r id = true ->
  resetHistory (cbuf r) = 0 /\ offscreen (historyUV r id) = false.
Proof.
  unfold validHistory. destruct (offscreen _); [discriminate|].
  intros Hr. split; [apply Z.eqb_eq, Hr | reflexivity].
Qed.

Lemma lookup_store_motion o id (m : float2 F) (c : F) :
  MotionOut (store o id m c) !! id = Some m.
Proof. apply lookup_insert_eq. Qed.

Lemma lookup_store_conf o id (m : float2 F) (c : F) :
  ConfOut (store o id m c) !! id = Some c.
Proof. apply lookup_insert_eq. Qed.

Lemma store_comm o id1 id2 (m1 m2 : float2 F) (c1 c2 : F) :
  id1 <> id2 ->
  store (store o id2 m2 c2) id1 m1 c1 = store (store o id1 m1 c1) id2 m2 c2.
Proof.
  intros Hne. unfold store; simpl. f_equal; apply insert_insert_ne; congruence.
Qed.

(** No local of the kernel before the history samples reads the history
    textures. *)
Lemma historyUV_with_history r mh ch id :
  historyUV (with_history r mh ch) id = historyUV r id.
Proof. reflexivity. Qed.


Lemma CSMain_blend r id o :
  in_bounds r id ->
  validHistory r id = true ->
  CSMain r id o = store o id (finalMotion r id) (finalConf r id).
Proof.
  intros [Hx Hy] Hv. rewrite CSMain_inside by lia.
  rewrite shade_blend by exact Hv. reflexivity.
Qed.

(** C5. Anti-jitter deadzone: at a pixel with valid history, when the
    blended motion [lerp(currMotion, clampedHistory, alpha)] is shorter
    than 0.1 the motion written is exactly [(0, 0)]. *)
Theorem deadzone_zeroes_motion r id o :
  in_bounds r id ->
  validHistory r id = true ->
  flt (length (blendedMotion r id)) (flit 0.1) = true ->
  MotionOut (CSMain r id o) !! id = Some (flit 0, flit 0).
Proof.
  intros Hin Hv Hsmall. rewrite CSMain_blend by assumption.
  rewrite lookup_store_motion. unfold finalMotion.
  rewrite Hsmall. reflexivity.
Qed.

(** The confidence an invocation on the blend path writes does not look at
    the deadzone test. *)
Lemma blend_confidence r id o :
  in_bounds r id ->
  validHistory r id = true ->
  ConfOut (CSMain r id o) !! id
  = Some (lerp (currConf r id) (historyConf r id) (alpha r id)).
Proof.
  intros Hin Hv. rewrite CSMain_blend by assumption.
  apply lookup_store_conf.
Qed.

Lemma blend_motion r id o :
  in_bounds r id ->
  validHistory r id = true ->
  MotionOut (CSMain r id o) !! id = Some (finalMotion r id).
Proof.
  intros Hin Hv. rewrite CSMain_blend by assumption.
  apply lookup_store_motion.
Qed.

(** *** Writes *)

Lemma CSMain_other r id o p :
  p <> id ->
  MotionOut (CSMain r id o) !! p = MotionOut o !! p
  /\ ConfOut (CSMain r id o) !! p = ConfOut o !! p.
Proof.
  intros Hne.
  destruct (Z_lt_le_dec id.1 (tex_width (MotionCurr r))) as [Hx|Hx];
    [destruct (Z_lt_le_dec id.2 (tex_height (MotionCurr r))) as [Hy|Hy]|].
  - rewrite CSMain_inside by assumption. unfold store; simpl.
    split; apply lookup_insert_ne; congruence.
  - rewrite CSMain_outside by (right; exact Hy). split; reflexivity.
  - rewrite CSMain_outside by (left; exact Hx). split; reflexivity.
Qed.

Lemma threads_spec gx gy p :
  p ∈ threads gx gy <-> (0 <= p.1 < 16 * gx /\ 0 <= p.2 < 16 * gy).
Proof.
  unfold threads. rewrite list_elem_of_bind. split.
  - intros (y & Hp & Hy). apply list_elem_of_bind in Hp as (x & Hp & Hx).
    apply list_elem_of_singleton in Hp. subst p. simpl.
    apply elem_of_seqZ in Hx, Hy. lia.
  - intros [Hx Hy]. exists p.2. split; [|apply elem_of_seqZ; lia].
    apply list_elem_of_bind. exists p.1. split; [|apply elem_of_seqZ; lia].
    destruct p. simpl. apply list_elem_of_singleton. reflexivity.
Qed.

(** What a run of invocations leaves at [p]: the pair shaded for [p] when
    [p] is one of the invocations and lies in the image, the old texel
    otherwise. *)
Lemma run_lookup r (l : list (Z * Z)) p : forall o,
  let o' := foldl (fun o id => CSMain r id o) o l in
  (p ∈ l /\ p.1 < tex_width (MotionCurr r) /\ p.2 < tex_height (MotionCurr r) ->
     MotionOut o' !! p = Some (shade r p).1 /\ ConfOut o' !! p = Some (shade r p).2)
  /\ (~ (p ∈ l /\ p.1 < tex_width (MotionCurr r) /\ p.2 < tex_height (MotionCurr r)) ->
     MotionOut o' !! p = MotionOut o !! p /\ ConfOut o' !! p = ConfOut o !! p).
Proof.
  induction l as [|id l IH]; intros o; simpl.
  - split; [intros [Hin _]; inversion Hin | intros _; split; reflexivity].
  - destruct (IH (CSMain r id o)) as [IHin IHout]. split.
    + intros (Hin & Hx & Hy).
      destruct (decide (p ∈ l)) as [Hl|Hl]; [apply IHin; auto|].
      apply elem_of_cons in Hin as [->|Hin]; [|contradiction].
      destruct IHout as [-> ->]; [tauto|].
      rewrite CSMain_inside by assumption.
      split; [apply lookup_store_motion | apply lookup_store_conf].
    + intros Hno.
      destruct IHout as [-> ->].
      { intros (Hin & Hx & Hy). apply Hno. repeat split; auto. by right. }
      destruct (decide (p = id)) as [->|Hne]; [|by apply CSMain_other].
      rewrite CSMain_outside; [split; reflexivity|].
      destruct (Z_lt_le_dec id.1 (tex_width (MotionCurr r))); [|by left].
      destruct (Z_lt_le_dec id.2 (tex_height (MotionCurr r))); [|by right].
      exfalso. apply Hno. repeat split; auto. by left.
Qed.

(** C9. An invocation outside the image returns before it computes or
    writes anything; an invocation inside writes its own location of each
    output and no other; so a dispatch of any size leaves every texel
    outside the image as it was. *)
Theorem out_of_bounds_writes_nothing r id o :
  ((tex_width (MotionCurr r) <= id.1 \/ tex_height (MotionCurr r) <= id.2) ->
     CSMain r id o = o)
  /\ (id.1 < tex_width (MotionCurr r) /\ id.2 < tex_height (MotionCurr r) ->
     exists (m : float2 F) (c : F),
       CSMain r id o
       = {| MotionOut := <[id := m]> (MotionOut o);
            ConfOut := <[id := c]> (ConfOut o) |})
  /\ (forall p, p <> id ->
       MotionOut (CSMain r id o) !! p = MotionOut o !! p
       /\ ConfOut (CSMain r id o) !! p = ConfOut o !! p)
  /\ (forall gx gy p,
       ~ (0 <= p.1 < tex_width (MotionCurr r) /\ 0 <= p.2 < tex_height (MotionCurr r)) ->
       MotionOut (Dispatch r gx gy o) !! p = MotionOut o !! p
       /\ ConfOut (Dispatch r gx gy o) !! p = ConfOut o !! p).
Proof.
  split; [apply CSMain_outside|].
  split.
  { intros [Hx Hy]. exists (shade r id).1, (shade r id).2.
    apply CSMain_inside; assumption. }
  split; [intros p; apply CSMain_other|].
  intros gx gy p Hout. unfold Dispatch.
  apply (run_lookup r (threads gx gy) p o).
  intros (Hin & Hx & Hy). apply threads_spec in Hin. apply Hout. lia.
Qed.

(** *** Inputs the kernel declares and never reads *)

Lemma shade_same_read_inputs r1 r2 id :
  same_read_inputs r1 r2 -> shade r1 id = shade r2 id.
Proof.
  destruct r1 as [mc1 cc1 mh1 ch1 lp1 lc1 s1 [hw1 ci1 rh1 pd1]].
  destruct r2 as [mc2 cc2 mh2 ch2 lp2 lc2 s2 [hw2 ci2 rh2 pd2]].
  unfold same_read_inputs; simpl.
  intros (-> & -> & -> & -> & -> & ->). reflexivity.
Qed.

(** C8. The output of an invocation is a function of the textures and
    constants the kernel reads: two runs that agree on the current and
    history textures, the sampler and [resetHistory] write the same values,
    whatever [LumaPrev], [LumaCurr], [historyWeight] and [confInfluence]
    hold in either; and the order in which two invocations run does not
    change the outputs. *)
Theorem unused_inputs_do_not_interfere r1 r2 id o :
  same_read_inputs r1 r2 ->
  CSMain r1 id o = CSMain r2 id o
  /\ (forall id', CSMain r1 id (CSMain r1 id' o) = CSMain r1 id' (CSMain r1 id o)).
Proof.
  intros Hsame. split.
  - pose proof (shade_same_read_inputs r1 r2 id Hsame) as Hshade.
    destruct Hsame as (Hmc & _).
    destruct (Z_lt_le_dec id.1 (tex_width (MotionCurr r1))) as [Hx|Hx];
      [destruct (Z_lt_le_dec id.2 (tex_height (MotionCurr r1))) as [Hy|Hy]|].
    + rewrite (CSMain_inside r1) by assumption.
      rewrite (CSMain_inside r2) by (rewrite <- Hmc; assumption).
      rewrite Hshade. reflexivity.
    + rewrite (CSMain_outside r1) by (by right).
      rewrite (CSMain_outside r2) by (rewrite <- Hmc; by right). reflexivity.
    + rewrite (CSMain_outside r1) by (by left).
      rewrite (CSMain_outside r2) by (rewrite <- Hmc; by left). reflexivity.
  - intros id'.
    destruct (decide (id = id')) as [->|Hne]; [reflexivity|].
    destruct (Z_lt_le_dec id.1 (tex_width (MotionCurr r1)));
      [destruct (Z_lt_le_dec id.2 (tex_height (MotionCurr r1)))|];
      [|rewrite !(CSMain_outside r1 id) by (by right); reflexivity
       |rewrite !(CSMain_outside r1 id) by (by left); reflexivity].
    destruct (Z_lt_le_dec id'.1 (tex_width (MotionCurr r1)));
      [destruct (Z_lt_le_dec id'.2 (tex_height (MotionCurr r1)))|];
      [|rewrite !(CSMain_outside r1 id') by (by right); reflexivity
       |rewrite !(CSMain_outside r1 id') by (by left); reflexivity].
    rewrite !(CSMain_inside r1 id), !(CSMain_inside r1 id') by assumption.
    apply store_comm. exact Hne.
Qed.

End ControlFlow.

(** ** Neighbourhood addressing *)

Section Addressing.

Lemma wrap_s32_small z : - 2 ^ 31 <= z < 2 ^ 31 -> wrap_s32 z = z.
Proof. intros Hz. unfold wrap_s32. rewrite Z.mod_small by lia. lia. Qed.

Lemma wrap_s32_wrap_u32 z : wrap_s32 (wrap_u32 z) = wrap_s32 z.
Proof.
  unfold wrap_s32, wrap_u32. f_equal.
  rewrite Zplus_mod_idemp_l. reflexivity.
Qed.

(** Adding a loop counter to a thread coordinate and reading the sum as an
    [int] gives the mathematical sum while it fits an [int]. *)
Lemma int_of_uint_add_int u i :
  - 2 ^ 31 <= u + i < 2 ^ 31 -> wrap_s32 (uint_add_int u i) = u + i.
Proof.
  intros Hz. unfold uint_add_int. rewrite wrap_s32_wrap_u32.
  unfold wrap_s32, wrap_u32.
  replace (u + i mod 2 ^ 32 + 2 ^ 31) with ((u + 2 ^ 31) + i mod 2 ^ 32) by lia.
  rewrite Zplus_mod_idemp_r.
  replace (u + 2 ^ 31 + i) with (u + i + 2 ^ 31) by lia.
  rewrite Z.mod_small by lia. lia.
Qed.

Lemma clampi_edge n v : 0 < n -> clampi v 0 (n - 1) = edge n v.
Proof.
  intros Hn. unfold clampi, edge.
  destruct (Z.ltb_spec v 0); destruct (Z.ltb_spec (n - 1) v); lia.
Qed.

Lemma edge_range n v : 0 < n -> 0 <= edge n v < n.
Proof.
  intros Hn. unfold edge.
  destruct (Z.ltb_spec v 0); destruct (Z.ltb_spec (n - 1) v); lia.
Qed.

Lemma offsets_spec o :
  o ∈ offsets <-> (-1 <= o.1 <= 1 /\ -1 <= o.2 <= 1).
Proof.
  split.
  - intros Ho. unfold offsets in Ho. simpl in Ho.
    repeat (apply elem_of_cons in Ho as [-> | Ho]; [simpl; lia|]).
    inversion Ho.
  - destruct o as [dx dy]; simpl. intros [Hx Hy].
    assert (Hdx : dx = -1 \/ dx = 0 \/ dx = 1) by lia.
    assert (Hdy : dy = -1 \/ dy = 0 \/ dy = 1) by lia.
    destruct Hdx as [-> | [-> | ->]]; destruct Hdy as [-> | [-> | ->]];
      apply list_elem_of_In; simpl; tauto.
Qed.

Lemma nPos_edge w h id o :
  0 <= id.1 < w -> 0 <= id.2 < h -> w <= INT_MAX -> h <= INT_MAX ->
  o ∈ offsets ->
  nPos w h id o = (edge w (id.1 + o.1), edge h (id.2 + o.2)).
Proof.
  unfold INT_MAX. intros Hx Hy Hw Hh Ho. apply offsets_spec in Ho.
  unfold nPos. cbn [fst snd].
  rewrite !int_of_uint_add_int by lia.
  rewrite !wrap_s32_wrap_u32, !wrap_s32_small by lia.
  rewrite !clampi_edge by lia. reflexivity.
Qed.

Lemma to_int2_id w h id :
  0 <= id.1 < w -> 0 <= id.2 < h -> w <= INT_MAX -> h <= INT_MAX ->
  to_int2 id = id.
Proof.
  unfold INT_MAX, to_int2. intros Hx Hy Hw Hh.
  rewrite !wrap_s32_small by lia. destruct id; reflexivity.
Qed.

Lemma Load_opt_in_range {T} (t : Texture2D T) p :
  0 <= p.1 < tex_width t -> 0 <= p.2 < tex_height t ->
  Load_opt t p = Some (texel t p.1 p.2).
Proof.
  intros Hx Hy. unfold Load_opt, in_range.
  destruct (Z.leb_spec 0 p.1); [|lia]. destruct (Z.ltb_spec p.1 (tex_width t)); [|lia].
  destruct (Z.leb_spec 0 p.2); [|lia]. destruct (Z.ltb_spec p.2 (tex_height t)); [|lia].
  reflexivity.
Qed.

Lemma Load_in_range {T} (zero : T) (t : Texture2D T) p :
  0 <= p.1 < tex_width t -> 0 <= p.2 < tex_height t ->
  Load zero t p = texel t p.1 p.2.
Proof. intros Hx Hy. unfold Load. rewrite Load_opt_in_range by assumption. reflexivity. Qed.

(** C7. Edge-clamped addressing: at a pixel of the image, each of the nine
    addresses the neighbourhood loop loads from is the pixel's coordinate
    plus the loop counters, clamped axis by axis to the first or last
    texel; it lies inside the texture, so each load returns a texel of the
    texture, border pixels included, and the loop nest performs exactly
    nine loads. *)
Theorem neighbourhood_reads_edge_clamped {T} (mc : Texture2D T) id :
  0 <= id.1 < tex_width mc -> 0 <= id.2 < tex_height mc ->
  tex_width mc <= INT_MAX -> tex_height mc <= INT_MAX ->
  (forall o, o ∈ offsets ->
     let p := nPos (tex_width mc) (tex_height mc) id o in
     p = (edge (tex_width mc) (id.1 + o.1), edge (tex_height mc) (id.2 + o.2))
     /\ (0 <= p.1 <= tex_width mc - 1 /\ 0 <= p.2 <= tex_height mc - 1)
     /\ Load_opt mc p = Some (neighbour mc id o))
  /\ Forall (fun p => is_Some (Load_opt mc p))
       (neighborhoodReads (tex_width mc) (tex_height mc) id)
  /\ List.length (neighborhoodReads (tex_width mc) (tex_height mc) id) = 9%nat.
Proof.
  intros Hx Hy Hw Hh.
  assert (Hall : forall o, o ∈ offsets ->
     let p := nPos (tex_width mc) (tex_height mc) id o in
     p = (edge (tex_width mc) (id.1 + o.1), edge (tex_height mc) (id.2 + o.2))
     /\ (0 <= p.1 <= tex_width mc - 1 /\ 0 <= p.2 <= tex_height mc - 1)
     /\ Load_opt mc p = Some (neighbour mc id o)).
  { intros o Ho p. subst p.
    rewrite (nPos_edge _ _ id o) by assumption. cbn [fst snd].
    pose proof (edge_range (tex_width mc) (id.1 + o.1)) as Hex.
    pose proof (edge_range (tex_height mc) (id.2 + o.2)) as Hey.
    split; [reflexivity|]. split; [lia|].
    rewrite Load_opt_in_range by (cbn [fst snd]; lia). reflexivity. }
  split; [exact Hall|]. split; [|reflexivity].
  unfold neighborhoodReads. apply Forall_map, Forall_forall.
  intros o Ho. destruct (Hall o Ho) as (_ & _ & ->). by eexists.
Qed.

End Addressing.

(** ** What holds in exact arithmetic *)

Section Exact.
Implicit Types (r : Resources R) (id : Z * Z) (out : Outputs R).
Local Open Scope R_scope.

Lemma Rltb_true a b : Rltb a b = true <-> a < b.
Proof. unfold Rltb. destruct (Rlt_dec a b); split; auto; discriminate. Qed.

Lemma Rltb_false a b : Rltb a b = false <-> b <= a.
Proof.
  unfold Rltb. destruct (Rlt_dec a b); split; auto; try discriminate; lra.
Qed.

(** Case analysis on a comparison of the kernel, keeping the order fact. *)
Ltac cmp a b :=
  let H := fresh "Hcmp" in
  destruct (Rltb a b) eqn:H;
  [apply Rltb_true in H | apply Rltb_false in H].

Lemma lit_0 : Q2R 0 = 0.
Proof. unfold Q2R; simpl. lra. Qed.

Lemma lit_1 : Q2R 1 = 1.
Proof. unfold Q2R; simpl. lra. Qed.

(** C3. The blend weight.  [diffLen] is the Euclidean distance of the
    clamped history from the current motion.  [alpha] is [0] when
    [historyConf < 0.2], and otherwise the base weight (0.5 when
    [diffLen > 10], else 0.8 when [diffLen > 2], else 0.94) times 0.9 when
    [currConf > 0.9] and times 1 when not; it always lies in [[0, 1]]; and
    it is the weight of both blends of step 7.  This holds in exact
    arithmetic and, rounding included, on binary32, where the distance is
    the rounded square root of the rounded sum of the rounded squares. *)
Theorem alpha_follows_rule :
  (forall (r : Resources R) (id : Z * Z),
     let d := distance (clampedHistory r id) (currMotion r id) in
     let a := alpha_rule (historyConf r id) (currConf r id) d in
     diffLen r id = d
     /\ alpha r id = a
     /\ 0 <= alpha r id <= 1
     /\ blendedMotion r id = lerp2 (currMotion r id) (clampedHistory r id) a
     /\ finalConf r id = lerp (currConf r id) (historyConf r id) a)
  /\ (forall (r : Resources spec_float) (id : Z * Z),
       let dx := fsub (clampedHistory r id).1 (currMotion r id).1 in
       let dy := fsub (clampedHistory r id).2 (currMotion r id).2 in
       let d := fsqrt (fadd (fmul dx dx) (fmul dy dy)) in
       let a := alpha_rule (historyConf r id) (currConf r id) d in
       diffLen r id = d
       /\ alpha r id = a
       /\ flt (alpha r id) (flit 0) = false
       /\ flt (flit 1) (alpha r id) = false
       /\ blendedMotion r id = lerp2 (currMotion r id) (clampedHistory r id) a
       /\ finalConf r id = lerp (currConf r id) (historyConf r id) a).
Proof.
  split; intros r id; cbv zeta.
  - assert (Hd : diffLen r id
                 = distance (clampedHistory r id) (currMotion r id))
      by reflexivity.
    assert (Ha : alpha r id
                 = alpha_rule (historyConf r id) (currConf r id) (diffLen r id)
                 /\ 0 <= alpha r id <= 1).
    { unfold alpha, alpha_rule, alpha_base. cbn [flt fmul flit R_ops].
      generalize (historyConf r id) (currConf r id) (diffLen r id).
      intros hc cc d.
      cmp hc (Q2R 0.2); cmp (Q2R 0.9) cc; cmp (Q2R 10.0) d; cmp (Q2R 2.0) d;
        unfold Q2R in *; simpl in *; split; lra. }
    destruct Ha as [Ha Hunit]. rewrite <- Hd, <- Ha.
    repeat split; (reflexivity || apply Hunit).
  - assert (Hd : diffLen r id
                 = fsqrt (fadd (fmul (fsub (clampedHistory r id).1 (currMotion r id).1)
                                     (fsub (clampedHistory r id).1 (currMotion r id).1))
                               (fmul (fsub (clampedHistory r id).2 (currMotion r id).2)
                                     (fsub (clampedHistory r id).2 (currMotion r id).2))))
      by reflexivity.
    assert (Ha : alpha r id
                 = alpha_rule (historyConf r id) (currConf r id) (diffLen r id)
                 /\ flt (alpha r id) (flit 0) = false
                 /\ flt (flit 1) (alpha r id) = false).
    { unfold alpha, alpha_rule, alpha_base.
      generalize (historyConf r id) (currConf r id) (diffLen r id).
      intros hc cc d.
      destruct (flt hc (flit 0.2)); destruct (flt (flit 0.9) cc);
        destruct (flt (flit 10.0) d); destruct (flt (flit 2.0) d);
        vm_compute; repeat split; reflexivity. }
    destruct Ha as (Ha & Hlo & Hhi). rewrite <- Hd, <- Ha.
    repeat split; (reflexivity || assumption).
Qed.

(** *** The bounding box *)

Lemma fold_Rmin_spec (vs : list R) : forall a,
  let m := fold_left Rmin vs a in
  m <= a /\ (forall v, In v vs -> m <= v) /\ (m = a \/ In m vs).
Proof.
  induction vs as [|v vs IH]; intros a; simpl.
  - split; [lra|]. split; [tauto|]. by left.
  - destruct (IH (Rmin a v)) as (Hle & Hall & Hatt).
    pose proof (Rmin_l a v). pose proof (Rmin_r a v).
    split; [lra|]. split.
    + intros u [<- | Hu]; [lra | auto].
    + destruct Hatt as [Hatt | Hatt]; [|by right; right].
      rewrite Hatt. destruct (Rle_dec a v).
      * left. apply Rmin_left. assumption.
      * right; left. symmetry. apply Rmin_right. lra.
Qed.

Lemma fold_Rmax_spec (vs : list R) : forall a,
  let m := fold_left Rmax vs a in
  a <= m /\ (forall v, In v vs -> v <= m) /\ (m = a \/ In m vs).
Proof.
  induction vs as [|v vs IH]; intros a; simpl.
  - split; [lra|]. split; [tauto|]. by left.
  - destruct (IH (Rmax a v)) as (Hle & Hall & Hatt).
    pose proof (Rmax_l a v). pose proof (Rmax_r a v).
    split; [lra|]. split.
    + intros u [<- | Hu]; [lra | auto].
    + destruct Hatt as [Hatt | Hatt]; [|by right; right].
      rewrite Hatt. destruct (Rle_dec a v).
      * right; left. symmetry. apply Rmax_right. assumption.
      * left. apply Rmax_left. lra.
Qed.

(** The loop nest keeps four independent running extrema, one per
    component and direction. *)
Lemma neighborhood_fold (mc : Texture2D (float2 R)) (l : list (Z * Z)) :
  forall a b : float2 R,
  let res :=
    fold_left
      (fun (acc : float2 R * float2 R) (p : Z * Z) =>
         let nMotion := Load zero2 mc p in
         (min2 acc.1 nMotion, max2 acc.2 nMotion))
      l (a, b) in
  res.1.1 = fold_left Rmin (map (fun p => (Load zero2 mc p).1) l) a.1
  /\ res.1.2 = fold_left Rmin (map (fun p => (Load zero2 mc p).2) l) a.2
  /\ res.2.1 = fold_left Rmax (map (fun p => (Load zero2 mc p).1) l) b.1
  /\ res.2.2 = fold_left Rmax (map (fun p => (Load zero2 mc p).2) l) b.2.
Proof.
  induction l as [|p l IH]; intros a b; simpl.
  - repeat split.
  - exact (IH (min2 a (Load zero2 mc p)) (max2 b (Load zero2 mc p))).
Qed.

Lemma neighbour_centre {T} (mc : Texture2D T) id :
  (0 <= id.1 < tex_width mc)%Z -> (0 <= id.2 < tex_height mc)%Z ->
  neighbour mc id (0, 0)%Z = texel mc id.1 id.2.
Proof.
  intros Hx Hy. unfold neighbour, edge; cbn [fst snd].
  rewrite !Z.add_0_r.
  destruct (Z.ltb_spec id.1 0); [lia|]. destruct (Z.ltb_spec id.2 0); [lia|].
  destruct (Z.ltb_spec (tex_width mc - 1) id.1); [lia|].
  destruct (Z.ltb_spec (tex_height mc - 1) id.2); [lia|]. reflexivity.
Qed.

Lemma Load_nPos (mc : Texture2D (float2 R)) id o :
  (0 <= id.1 < tex_width mc)%Z -> (0 <= id.2 < tex_height mc)%Z ->
  (tex_width mc <= INT_MAX)%Z -> (tex_height mc <= INT_MAX)%Z ->
  o ∈ offsets ->
  Load zero2 mc (nPos (tex_width mc) (tex_height mc) id o) = neighbour mc id o.
Proof.
  intros Hx Hy Hw Hh Ho. rewrite (nPos_edge _ _ id o) by assumption.
  pose proof (edge_range (tex_width mc) (id.1 + o.1)).
  pose proof (edge_range (tex_height mc) (id.2 + o.2)).
  rewrite Load_in_range by (cbn [fst snd]; lia). reflexivity.
Qed.

(** The values the loop nest folds over are the nine neighbours. *)
Lemma neighbourhood_values (mc : Texture2D (float2 R)) id (f : float2 R -> R) :
  (0 <= id.1 < tex_width mc)%Z -> (0 <= id.2 < tex_height mc)%Z ->
  (tex_width mc <= INT_MAX)%Z -> (tex_height mc <= INT_MAX)%Z ->
  map (fun p => f (Load zero2 mc p))
      (neighborhoodReads (tex_width mc) (tex_height mc) id)
  = map (fun o => f (neighbour mc id o)) offsets.
Proof.
  intros Hx Hy Hw Hh. unfold neighborhoodReads. rewrite map_map.
  apply map_ext_in. intros o Ho. apply list_elem_of_In in Ho.
  rewrite Load_nPos by assumption. reflexivity.
Qed.

(** A running minimum (maximum) started at the centre pixel is the least
    (greatest) of the nine neighbours, the centre being one of them. *)
Lemma extremum_of_neighbours (mc : Texture2D (float2 R)) id (f : float2 R -> R) :
  (0 <= id.1 < tex_width mc)%Z -> (0 <= id.2 < tex_height mc)%Z ->
  let vs := map (fun o => f (neighbour mc id o)) offsets in
  let c := f (texel mc id.1 id.2) in
  ((forall o, o ∈ offsets -> fold_left Rmin vs c <= f (neighbour mc id o))
   /\ exists o, o ∈ offsets /\ fold_left Rmin vs c = f (neighbour mc id o))
  /\ ((forall o, o ∈ offsets -> f (neighbour mc id o) <= fold_left Rmax vs c)
      /\ exists o, o ∈ offsets /\ fold_left Rmax vs c = f (neighbour mc id o)).
Proof.
  intros Hx Hy vs c.
  assert (Hc : c = f (neighbour mc id (0, 0)%Z))
    by (unfold c; rewrite neighbour_centre by assumption; reflexivity).
  assert (H00 : (0, 0)%Z ∈ offsets) by (apply offsets_spec; simpl; lia).
  assert (Hin : forall v, In v vs -> exists o, o ∈ offsets /\ v = f (neighbour mc id o)).
  { intros v Hv. apply in_map_iff in Hv as (o & <- & Ho).
    exists o. split; [by apply list_elem_of_In | reflexivity]. }
  assert (Hvs : forall o, o ∈ offsets -> In (f (neighbour mc id o)) vs).
  { intros o Ho. apply in_map_iff. exists o. split; [reflexivity|].
    by apply list_elem_of_In. }
  destruct (fold_Rmin_spec vs c) as (_ & Hlo & Hlo_att).
  destruct (fold_Rmax_spec vs c) as (_ & Hhi & Hhi_att).
  split; split; auto.
  - destruct Hlo_att as [-> | Hatt]; [exists (0, 0)%Z; auto | auto].
  - destruct Hhi_att as [-> | Hatt]; [exists (0, 0)%Z; auto | auto].
Qed.

(** [minMotion] and [maxMotion] as four running extrema over the loads. *)
Lemma bounds_fold r id :
  let reads :=
    neighborhoodReads (tex_width (MotionCurr r)) (tex_height (MotionCurr r)) id in
  let ld := Load zero2 (MotionCurr r) in
  (minMotion r id).1 = fold_left Rmin (map (fun p => (ld p).1) reads) (currMotion r id).1
  /\ (minMotion r id).2 = fold_left Rmin (map (fun p => (ld p).2) reads) (currMotion r id).2
  /\ (maxMotion r id).1 = fold_left Rmax (map (fun p => (ld p).1) reads) (currMotion r id).1
  /\ (maxMotion r id).2 = fold_left Rmax (map (fun p => (ld p).2) reads) (currMotion r id).2.
Proof.
  exact (neighborhood_fold (MotionCurr r)
           (neighborhoodReads (tex_width (MotionCurr r))
                              (tex_height (MotionCurr r)) id)
           (currMotion r id) (currMotion r id)).
Qed.

Lemma currMotion_texel r id :
  in_bounds r id ->
  (tex_width (MotionCurr r) <= INT_MAX)%Z ->
  (tex_height (MotionCurr r) <= INT_MAX)%Z ->
  currMotion r id = texel (MotionCurr r) id.1 id.2.
Proof.
  intros [Hx Hy] Hw Hh. unfold currMotion.
  rewrite (to_int2_id _ _ id Hx Hy Hw Hh).
  apply Load_in_range; assumption.
Qed.

(** The bounds are ordered, because the centre pixel lies between them. *)
Lemma clamp_between (v lo hi : R) :
  lo <= hi -> lo <= Rmin (Rmax v lo) hi <= hi.
Proof.
  intros Hle. split; [|apply Rmin_r].
  apply Rmin_glb; [apply Rmax_r | exact Hle].
Qed.

(** C2. Clamp containment: at a pixel of the image the clamped history
    lies, component by component, between [minMotion] and [maxMotion]; and
    these are the least and the greatest value of each component of the
    current motion over the nine neighbours of the pixel, addressed with
    edge clamping; the history textures play no part in the bounds. *)
Theorem clamp_containment r id :
  in_bounds r id ->
  (tex_width (MotionCurr r) <= INT_MAX)%Z ->
  (tex_height (MotionCurr r) <= INT_MAX)%Z ->
  let lo := minMotion r id in
  let hi := maxMotion r id in
  let c := clampedHistory r id in
  let nb := neighbour (MotionCurr r) id in
  (lo.1 <= c.1 <= hi.1 /\ lo.2 <= c.2 <= hi.2)
  /\ (forall o, o ∈ offsets ->
        lo.1 <= (nb o).1 <= hi.1 /\ lo.2 <= (nb o).2 <= hi.2)
  /\ ((exists o, o ∈ offsets /\ lo.1 = (nb o).1)
      /\ (exists o, o ∈ offsets /\ lo.2 = (nb o).2)
      /\ (exists o, o ∈ offsets /\ hi.1 = (nb o).1)
      /\ (exists o, o ∈ offsets /\ hi.2 = (nb o).2))
  /\ (forall mh ch,
        minMotion (with_history r mh ch) id = lo
        /\ maxMotion (with_history r mh ch) id = hi).
Proof.
  intros Hin Hw Hh. cbv zeta.
  destruct (bounds_fold r id) as (Hlo1 & Hlo2 & Hhi1 & Hhi2).
  cbv zeta in Hlo1, Hlo2, Hhi1, Hhi2.
  rewrite (currMotion_texel r id Hin Hw Hh) in Hlo1, Hlo2, Hhi1, Hhi2.
  destruct Hin as [Hx Hy].
  rewrite (neighbourhood_values _ id fst) in Hlo1, Hhi1 by assumption.
  rewrite (neighbourhood_values _ id snd) in Hlo2, Hhi2 by assumption.
  destruct (extremum_of_neighbours (MotionCurr r) id fst Hx Hy)
    as [[Hmin1 Hamin1] [Hmax1 Hamax1]].
  destruct (extremum_of_neighbours (MotionCurr r) id snd Hx Hy)
    as [[Hmin2 Hamin2] [Hmax2 Hamax2]].
  rewrite <- Hlo1 in Hmin1, Hamin1. rewrite <- Hhi1 in Hmax1, Hamax1.
  rewrite <- Hlo2 in Hmin2, Hamin2. rewrite <- Hhi2 in Hmax2, Hamax2.
  assert (H00 : (0, 0)%Z ∈ offsets) by (apply offsets_spec; simpl; lia).
  assert (Hbox : forall o, o ∈ offsets ->
            (minMotion r id).1 <= (neighbour (MotionCurr r) id o).1 <= (maxMotion r id).1
            /\ (minMotion r id).2 <= (neighbour (MotionCurr r) id o).2 <= (maxMotion r id).2).
  { intros o Ho. repeat split; auto. }
  split.
  { destruct (Hbox _ H00) as [H1 H2].
    split; apply clamp_between; lra. }
  split; [exact Hbox|].
  split; [auto|].
  intros mh ch. split; reflexivity.
Qed.

(** In exact arithmetic the kernel's off-screen test is the complement
    of the closed unit square. *)
Lemma offscreen_spec (p : float2 R) :
  offscreen p = false <-> (0 <= p.1 <= 1 /\ 0 <= p.2 <= 1).
Proof.
  unfold offscreen. cbn [flt flit R_ops]. rewrite lit_0, lit_1.
  split.
  - intros Hoff.
    apply orb_false_elim in Hoff as [Hoff H4].
    apply orb_false_elim in Hoff as [Hoff H3].
    apply orb_false_elim in Hoff as [H1 H2].
    apply Rltb_false in H1, H2, H3, H4. lra.
  - intros [[H1 H3] [H2 H4]].
    rewrite !(proj2 (Rltb_false _ _)) by lra. reflexivity.
Qed.

(** *** The filter *)

Lemma lerp_same (c t : R) : lerp c c t = c.
Proof. unfold lerp. cbn [fadd fsub fmul R_ops]. ring. Qed.

Lemma lerp_at_0 (a b : R) : lerp a b 0 = a.
Proof. unfold lerp. cbn [fadd fsub fmul R_ops]. ring. Qed.

Lemma bilinear_preserves_const : preserves_const (LinearClampState (F := R)).
Proof.
  intros t c uv lod Hw Hh Hc. simpl. unfold bilinear_clamp. cbv zeta beta.
  assert (Hfetch : forall x y,
            texel t (clampi x 0 (tex_width t - 1)) (clampi y 0 (tex_height t - 1)) = c).
  { intros x y. rewrite !clampi_edge by assumption.
    apply Hc; apply edge_range; assumption. }
  rewrite !Hfetch. ring.
Qed.

Lemma channel_const {A B} (f : A -> B) (t : Texture2D A) (c : A) :
  const_on t c -> const_on (channel f t) (f c).
Proof. intros Hc x y Hx Hy. simpl. rewrite Hc by assumption. reflexivity. Qed.

Lemma sample_const_motion r id (m : float2 R) :
  preserves_const (LinearClamp r) ->
  (0 < tex_width (MotionHistory r))%Z -> (0 < tex_height (MotionHistory r))%Z ->
  const_on (MotionHistory r) m ->
  historyMotion r id = m.
Proof.
  intros Hs Hw Hh Hc. unfold historyMotion, SampleLevel2, SampleLevel.
  rewrite (Hs _ m.1), (Hs _ m.2) by (try apply channel_const; assumption).
  destruct m; reflexivity.
Qed.

Lemma sample_const_conf r id (c : R) :
  preserves_const (LinearClamp r) ->
  (0 < tex_width (ConfHistory r))%Z -> (0 < tex_height (ConfHistory r))%Z ->
  const_on (ConfHistory r) c ->
  historyConf r id = c.
Proof.
  intros Hs Hw Hh Hc. unfold historyConf, SampleLevel.
  apply Hs; assumption.
Qed.

(** *** Discarded history *)

Lemma discard_alpha r id :
  flt (historyConf r id) (flit 0.2) = true -> alpha r id = 0.
Proof.
  intros Hlow. unfold alpha. rewrite Hlow.
  cbn [flit R_ops]. unfold Q2R; simpl. lra.
Qed.

Lemma discard_blend r id :
  flt (historyConf r id) (flit 0.2) = true ->
  blendedMotion r id = currMotion r id /\ finalConf r id = currConf r id.
Proof.
  intros Hlow. unfold blendedMotion, finalConf.
  rewrite (discard_alpha r id Hlow). split; [|apply lerp_at_0].
  unfold lerp2, add2, scale2, sub2. cbn [fadd fsub fmul R_ops fst snd].
  destruct (currMotion r id) as [mx my]. cbn [fst snd]. f_equal; ring.
Qed.

(** C4, as the kernel has it.  At a pixel with valid history and
    [historyConf < 0.2] the weight is [0], so the blend is the current
    motion and the current confidence, however close the history is to the
    current motion.  The confidence written is the current confidence.  The
    deadzone still applies to the motion: what is written is the current
    motion when its length is at least 0.1, and [(0, 0)] when it is
    shorter. *)
Theorem history_discard r id out :
  in_bounds r id ->
  validHistory r id = true ->
  flt (historyConf r id) (flit 0.2) = true ->
  alpha r id = 0
  /\ blendedMotion r id = currMotion r id
  /\ ConfOut (CSMain r id out) !! id = Some (currConf r id)
  /\ MotionOut (CSMain r id out) !! id
     = Some (if flt (length (currMotion r id)) (flit 0.1)
             then (0, 0) else currMotion r id).
Proof.
  intros Hin Hv Hlow.
  destruct (discard_blend r id Hlow) as [Hm Hc].
  split; [by apply discard_alpha|]. split; [exact Hm|].
  rewrite CSMain_blend by assumption.
  split; [rewrite lookup_store_conf; by rewrite Hc|].
  etransitivity; [apply lookup_store_motion|].
  unfold finalMotion. rewrite Hm. unfold zero2.
  cbn [flit R_ops]. rewrite lit_0. reflexivity.
Qed.

(** *** Uniform scenes in exact arithmetic *)

Lemma currConf_texel r id :
  (0 <= id.1 < tex_width (ConfCurr r))%Z ->
  (0 <= id.2 < tex_height (ConfCurr r))%Z ->
  (tex_width (ConfCurr r) <= INT_MAX)%Z ->
  (tex_height (ConfCurr r) <= INT_MAX)%Z ->
  currConf r id = texel (ConfCurr r) id.1 id.2.
Proof.
  intros Hx Hy Hw Hh. unfold currConf.
  rewrite (to_int2_id _ _ id Hx Hy Hw Hh).
  apply Load_in_range; assumption.
Qed.

Section Scene.
Variables (w h : Z) (m : float2 R) (c : R) (hm : float2 R) (hc luma : R) (reset : Z).
Variable id : Z * Z.
Hypothesis Hx : (0 <= id.1 < w)%Z.
Hypothesis Hy : (0 <= id.2 < h)%Z.
Hypothesis Hw : (w <= INT_MAX)%Z.
Hypothesis Hh : (h <= INT_MAX)%Z.

Local Abbreviation sc := (scene w h m c hm hc luma reset).

Lemma scene_currMotion : currMotion sc id = m.
Proof using Hx Hy Hw Hh.
  rewrite currMotion_texel; [reflexivity| split; assumption | assumption ..].
Qed.

Lemma scene_currConf : currConf sc id = c.
Proof using Hx Hy Hw Hh.
  rewrite currConf_texel; [reflexivity | assumption ..].
Qed.

Lemma scene_historyMotion : historyMotion sc id = hm.
Proof using Hx Hy.
  apply sample_const_motion; simpl; try lia.
  - apply bilinear_preserves_const.
  - intros x y _ _. reflexivity.
Qed.

Lemma scene_historyConf : historyConf sc id = hc.
Proof using Hx Hy.
  apply sample_const_conf; simpl; try lia.
  - apply bilinear_preserves_const.
  - intros x y _ _. reflexivity.
Qed.

Lemma scene_historyUV :
  historyUV sc id
  = ((IZR id.1 + Q2R 0.5) * (Q2R 1 / IZR w) - m.1 * (Q2R 1 / IZR w),
     (IZR id.2 + Q2R 0.5) * (Q2R 1 / IZR h) - m.2 * (Q2R 1 / IZR h)).
Proof using Hx Hy Hw Hh.
  unfold historyUV. rewrite scene_currMotion. reflexivity.
Qed.

End Scene.

(** Comparisons of numerals. *)
Ltac numerals := unfold Q2R; simpl; lra.
Ltac compare_numerals :=
  match goal with
  | |- Rltb _ _ = true => apply Rltb_true; numerals
  | |- Rltb _ _ = false => apply Rltb_false; numerals
  end.

Lemma creep_valid : validHistory creep (2, 2)%Z = true.
Proof.
  unfold validHistory, creep.
  rewrite scene_historyUV by (unfold INT_MAX; simpl; lia).
  unfold offscreen. cbn [fst snd flt flit R_ops].
  rewrite !(proj2 (Rltb_false _ _)); [reflexivity | numerals ..].
Qed.

Lemma creep_history_low : flt (historyConf creep (2, 2)%Z) (flit 0.2) = true.
Proof.
  unfold creep. rewrite scene_historyConf by (simpl; lia).
  cbn [flt flit R_ops]. compare_numerals.
Qed.

Lemma creep_length : flt (length (currMotion creep (2, 2)%Z)) (flit 0.1) = true.
Proof.
  unfold creep. rewrite scene_currMotion by (unfold INT_MAX; simpl; lia).
  unfold length, dot. cbn [fst snd flt flit fsqrt fadd fmul R_ops].
  apply Rltb_true.
  replace (Q2R 0.05 * Q2R 0.05 + Q2R 0 * Q2R 0) with (Q2R 0.05 * Q2R 0.05)
    by numerals.
  rewrite sqrt_square by numerals. numerals.
Qed.

(** C4 as the specification states it fails: in the 4 by 4 scene [creep]
    (current motion (0.05, 0) everywhere, history confidence 0, no reset)
    the pixel (2, 2) has valid history and [historyConf < 0.2], and the
    motion written is not the current motion. *)
Lemma history_discard_counterexample :
  in_bounds creep (2, 2)%Z
  /\ validHistory creep (2, 2)%Z = true
  /\ flt (historyConf creep (2, 2)%Z) (flit 0.2) = true
  /\ MotionOut (CSMain creep (2, 2)%Z no_output) !! (2, 2)%Z = Some (0, 0)
  /\ MotionOut (CSMain creep (2, 2)%Z no_output) !! (2, 2)%Z
     <> Some (currMotion creep (2, 2)%Z).
Proof.
  assert (Hin : in_bounds creep (2, 2)%Z) by (unfold in_bounds; simpl; lia).
  assert (Hout : MotionOut (CSMain creep (2, 2)%Z no_output) !! (2, 2)%Z
                 = Some (0, 0)).
  { rewrite CSMain_blend by (assumption || apply creep_valid).
    etransitivity; [apply lookup_store_motion|].
    unfold finalMotion.
    rewrite (proj1 (discard_blend creep (2, 2)%Z creep_history_low)).
    rewrite creep_length. unfold zero2. cbn [flit R_ops].
    rewrite lit_0. reflexivity. }
  split; [exact Hin|]. split; [apply creep_valid|].
  split; [apply creep_history_low|]. split; [exact Hout|].
  intros Heq. pose proof (eq_trans (eq_sym Hout) Heq) as Hsame.
  unfold creep in Hsame.
  rewrite scene_currMotion in Hsame by (unfold INT_MAX; simpl; lia).
  cbn [flit R_ops] in Hsame. inversion Hsame as [[H1 H2]].
  revert H1. unfold Q2R; simpl. lra.
Qed.

(** *** A scene at rest *)

(** The normalised centre of a pixel of the image lies in the unit
    interval. *)
Lemma centre_in_unit (x n : Z) :
  (0 <= x < n)%Z ->
  0 <= (IZR x + Q2R 0.5) * (1 / IZR n) - 0 * (1 / IZR n) <= 1.
Proof.
  intros Hx.
  assert (Hx0 : 0 <= IZR x) by (apply IZR_le; lia).
  assert (Hx1 : IZR x + 1 <= IZR n) by (rewrite <- plus_IZR; apply IZR_le; lia).
  assert (Hn : 0 < IZR n) by lra.
  replace (Q2R 0.5) with (/ 2) by numerals.
  unfold Rdiv. rewrite Rmult_1_l, Rmult_0_l, Rminus_0_r.
  pose proof (Rinv_0_lt_compat _ Hn) as Hinv.
  assert (Hunit : IZR n * / IZR n = 1) by (apply Rinv_r; lra).
  split; nra.
Qed.

Lemma clamp_zero (lo hi : R) : lo <= 0 -> 0 <= hi -> Rmin (Rmax 0 lo) hi = 0.
Proof.
  intros Hlo Hhi. rewrite Rmax_left by assumption. apply Rmin_left. assumption.
Qed.

Lemma still_valid r id : still r -> in_bounds r id -> validHistory r id = true.
Proof.
  intros (Hdim & _ & (Hmc & _) & _ & Hreset) Hin.
  unfold validHistory. rewrite Hreset.
  replace (offscreen (historyUV r id)) with false; [reflexivity|].
  symmetry. unfold historyUV.
  rewrite currMotion_texel by (assumption || lia).
  destruct Hin as [Hx Hy]. rewrite Hmc by assumption.
  unfold offscreen, uv, texelSize, GetDimensions, sub2, mul2.
  cbn [fst snd flt flit fadd fsub fmul fdiv of_int R_ops].
  pose proof (centre_in_unit _ _ Hx). pose proof (centre_in_unit _ _ Hy).
  rewrite !lit_0, !lit_1.
  rewrite !(proj2 (Rltb_false _ _)); [reflexivity | lra ..].
Qed.

Lemma still_clamped r id :
  preserves_const (LinearClamp r) -> still r -> in_bounds r id ->
  currMotion r id = (0, 0) /\ clampedHistory r id = (0, 0).
Proof.
  intros Hs (Hdim & (_ & Hmh & _) & (Hmc & _) & (Hmh0 & _) & _) Hin.
  assert (Hcm : currMotion r id = (0, 0)).
  { rewrite currMotion_texel by (assumption || lia).
    destruct Hin. apply Hmc; assumption. }
  split; [exact Hcm|].
  injection Hmh as Hmw Hmhh.
  unfold clampedHistory.
  rewrite (sample_const_motion r id (0, 0)) by (assumption || lia).
  destruct (bounds_fold r id) as (Hlo1 & Hlo2 & Hhi1 & Hhi2).
  cbv zeta in Hlo1, Hlo2, Hhi1, Hhi2.
  rewrite Hcm in Hlo1, Hlo2, Hhi1, Hhi2. cbn [fst snd] in Hlo1, Hlo2, Hhi1, Hhi2.
  unfold clamp2, min2, max2. cbn [fst snd fmin fmax R_ops].
  f_equal; apply clamp_zero.
  - rewrite Hlo1. apply (proj1 (fold_Rmin_spec _ _)).
  - rewrite Hhi1. apply (proj1 (fold_Rmax_spec _ _)).
  - rewrite Hlo2. apply (proj1 (fold_Rmin_spec _ _)).
  - rewrite Hhi2. apply (proj1 (fold_Rmax_spec _ _)).
Qed.

(** At rest every pixel of the image is shaded [(0, 0)] with
    confidence 1. *)
Lemma still_shade r id :
  preserves_const (LinearClamp r) -> still r -> in_bounds r id ->
  shade r id = ((0, 0), 1).
Proof.
  intros Hs Hstill Hin.
  destruct (still_clamped r id Hs Hstill Hin) as [Hcm Hclamped].
  rewrite shade_blend by (apply still_valid; assumption).
  destruct Hstill as (Hdim & (Hcc & _ & Hch) & (_ & Hcc1) & (_ & Hch1) & _).
  injection Hcc as Hccw Hcch. injection Hch as Hchw Hchh.
  assert (Hconf : currConf r id = 1).
  { destruct Hin. rewrite currConf_texel by lia. apply Hcc1; lia. }
  assert (Hhist : historyConf r id = 1)
    by (apply sample_const_conf; assumption || lia).
  assert (Hblend : blendedMotion r id = (0, 0)).
  { unfold blendedMotion. rewrite Hcm, Hclamped.
    unfold lerp2, add2, scale2, sub2. cbn [fst snd fadd fsub fmul R_ops].
    f_equal; ring. }
  f_equal.
  - unfold finalMotion. rewrite Hblend. unfold zero2. cbn [flit R_ops].
    rewrite lit_0. destruct (flt _ _); reflexivity.
  - unfold finalConf. rewrite Hconf, Hhist. apply lerp_same.
Qed.

(** A dispatch that covers the image leaves the shaded pair at every
    pixel. *)
Lemma Dispatch_covers r gx gy id out :
  in_bounds r id ->
  (tex_width (MotionCurr r) <= 16 * gx)%Z ->
  (tex_height (MotionCurr r) <= 16 * gy)%Z ->
  MotionOut (Dispatch r gx gy out) !! id = Some (shade r id).1
  /\ ConfOut (Dispatch r gx gy out) !! id = Some (shade r id).2.
Proof.
  intros [Hx Hy] Hgx Hgy. unfold Dispatch.
  apply (run_lookup r (threads gx gy) id out).
  split; [apply threads_spec; lia | lia].
Qed.

Lemma frame_still r gx gy :
  preserves_const (LinearClamp r) -> still r ->
  (tex_width (MotionCurr r) <= 16 * gx)%Z ->
  (tex_height (MotionCurr r) <= 16 * gy)%Z ->
  still (frame gx gy r).
Proof.
  intros Hs Hstill Hgx Hgy.
  assert (Hpix : forall x y,
            (0 <= x < tex_width (MotionCurr r))%Z ->
            (0 <= y < tex_height (MotionCurr r))%Z ->
            MotionOut (Dispatch r gx gy no_output) !! (x, y) = Some (0, 0)
            /\ ConfOut (Dispatch r gx gy no_output) !! (x, y) = Some 1).
  { intros x y Hx Hy.
    assert (Hin : in_bounds r (x, y)) by (split; assumption).
    destruct (Dispatch_covers r gx gy (x, y) no_output Hin Hgx Hgy) as [Hm Hc].
    rewrite (still_shade r (x, y) Hs Hstill Hin) in Hm, Hc. split; assumption. }
  destruct Hstill as (Hdim & (Hcc & _) & Hcurr & _ & Hreset).
  unfold frame, GetDimensions, still; simpl.
  split; [exact Hdim|]. split; [by rewrite Hcc|]. split; [exact Hcurr|].
  split; [|exact Hreset].
  split; intros x y Hx Hy; destruct (Hpix x y Hx Hy) as [Hm Hc].
  - exact (f_equal (default zero2) Hm).
  - exact (f_equal (default (flit 0)) Hc).
Qed.

Lemma frames_still r gx gy (n : nat) :
  preserves_const (LinearClamp r) -> still r ->
  (tex_width (MotionCurr r) <= 16 * gx)%Z ->
  (tex_height (MotionCurr r) <= 16 * gy)%Z ->
  let rn := Nat.iter n (frame gx gy) r in
  still rn /\ LinearClamp rn = LinearClamp r /\ MotionCurr rn = MotionCurr r.
Proof.
  intros Hs Hstill Hgx Hgy. induction n as [|n IH]; simpl.
  - split; [assumption | split; reflexivity].
  - destruct IH as (IHstill & IHs & IHmc).
    split; [|split; [rewrite <- IHs | rewrite <- IHmc]; reflexivity].
    apply frame_still; rewrite ?IHs, ?IHmc; assumption.
Qed.

(** C6. The scene at rest is a fixed point.  With current motion [(0, 0)]
    and confidence 1 everywhere, history motion [(0, 0)] and confidence 1
    everywhere and no reset, every pixel of the image is written [(0, 0)]
    with confidence 1; and when each frame's outputs are bound as the next
    frame's history, the scene is at rest again after any number of frames,
    each of which writes [(0, 0)] and 1 at every pixel. *)
Theorem zero_motion_fixpoint r gx gy :
  preserves_const (LinearClamp r) ->
  still r ->
  (tex_width (MotionCurr r) <= 16 * gx)%Z ->
  (tex_height (MotionCurr r) <= 16 * gy)%Z ->
  (forall id out, in_bounds r id ->
     MotionOut (CSMain r id out) !! id = Some (0, 0)
     /\ ConfOut (CSMain r id out) !! id = Some 1)
  /\ (forall (n : nat),
       let rn := Nat.iter n (frame gx gy) r in
       still rn
       /\ forall id, in_bounds r id ->
            MotionOut (Dispatch rn gx gy no_output) !! id = Some (0, 0)
            /\ ConfOut (Dispatch rn gx gy no_output) !! id = Some 1).
Proof.
  intros Hs Hstill Hgx Hgy. split.
  - intros id out Hin. destruct Hin as [Hx Hy].
    rewrite CSMain_inside by lia.
    rewrite (still_shade r id Hs Hstill (conj Hx Hy)).
    split; [apply lookup_store_motion | apply lookup_store_conf].
  - intros n rn.
    destruct (frames_still r gx gy n Hs Hstill Hgx Hgy) as (Hn & Hsn & Hmcn).
    fold rn in Hn, Hsn, Hmcn. split; [exact Hn|].
    intros id Hin.
    assert (Hin' : in_bounds rn id) by (unfold in_bounds; rewrite Hmcn; exact Hin).
    destruct (Dispatch_covers rn gx gy id no_output Hin') as [Hm Hc];
      [rewrite Hmcn; assumption ..|].
    rewrite (still_shade rn id) in Hm, Hc by (rewrite ?Hsn; assumption).
    split; assumption.
Qed.

End Exact.

(** ** Runs *)

Section Runs.

(** C10. The deadzone touches the motion only.  For every scalar model, at
    a pixel with valid history whose blended motion is shorter than 0.1,
    the motion written is [(0, 0)] and the confidence written is the blend
    [lerp(currConf, historyConf, alpha)], untouched.  On binary32 the
    drifting scene shows it at full confidence: the blended motion at
    (2, 2) is not [(0, 0)], the motion written is, and the confidence
    written is 1. *)
Theorem deadzone_leaves_confidence :
  (forall (F : Type) (ops : FloatOps F) (r : Resources F) (id : Z * Z)
          (o : Outputs F),
     in_bounds r id ->
     validHistory r id = true ->
     flt (length (blendedMotion r id)) (flit 0.1) = true ->
     MotionOut (CSMain r id o) !! id = Some (flit 0, flit 0)
     /\ ConfOut (CSMain r id o) !! id
        = Some (lerp (currConf r id) (historyConf r id) (alpha r id)))
  /\ (blendedMotion drift_b32 (2, 2) <> (flit 0, flit 0)
      /\ MotionOut (CSMain drift_b32 (2, 2) no_output) !! (2, 2)
         = Some (flit 0, flit 0)
      /\ ConfOut (CSMain drift_b32 (2, 2) no_output) !! (2, 2) = Some (flit 1)).
Proof.
  split.
  - intros F ops r id o Hin Hv Hsmall. split.
    + etransitivity; [apply blend_motion; assumption|].
      unfold finalMotion. rewrite Hsmall. reflexivity.
    + apply blend_confidence; assumption.
  - split; [vm_compute; discriminate|]. split; vm_compute; reflexivity.
Qed.

Lemma deadzone_leaves_confidence_witness :
  in_bounds drift_b32 (2, 2)
  /\ validHistory drift_b32 (2, 2) = true
  /\ flt (length (blendedMotion drift_b32 (2, 2))) (flit 0.1) = true
  /\ ConfOut (CSMain drift_b32 (2, 2) no_output) !! (2, 2)
     = Some (lerp (currConf drift_b32 (2, 2)) (historyConf drift_b32 (2, 2))
                  (alpha drift_b32 (2, 2))).
Proof.
  assert (Hin : in_bounds drift_b32 (2, 2)) by (unfold in_bounds; simpl; lia).
  assert (Hv : validHistory drift_b32 (2, 2) = true) by (vm_compute; reflexivity).
  assert (Hs : flt (length (blendedMotion drift_b32 (2, 2))) (flit 0.1) = true)
    by (vm_compute; reflexivity).
  split; [exact Hin|]. split; [exact Hv|]. split; [exact Hs|].
  exact (proj2 (proj1 deadzone_leaves_confidence _ _ drift_b32 (2, 2) no_output
                  Hin Hv Hs)).
Defined.


Lemma deadzone_zeroes_motion_witness :
  in_bounds drift_b32 (2, 2)
  /\ validHistory drift_b32 (2, 2) = true
  /\ flt (length (blendedMotion drift_b32 (2, 2))) (flit 0.1) = true
  /\ MotionOut (CSMain drift_b32 (2, 2) no_output) !! (2, 2)
     = Some (flit 0, flit 0).
Proof.
  assert (Hin : in_bounds drift_b32 (2, 2)) by (unfold in_bounds; simpl; lia).
  assert (Hv : validHistory drift_b32 (2, 2) = true) by (vm_compute; reflexivity).
  assert (Hs : flt (length (blendedMotion drift_b32 (2, 2))) (flit 0.1) = true)
    by (vm_compute; reflexivity).
  split; [exact Hin|]. split; [exact Hv|]. split; [exact Hs|].
  exact (deadzone_zeroes_motion drift_b32 (2, 2) no_output Hin Hv Hs).
Defined.

Lemma unused_inputs_do_not_interfere_witness :
  same_read_inputs drift_b32 drift_b32_luma
  /\ LumaCurr drift_b32 <> LumaCurr drift_b32_luma
  /\ CSMain drift_b32 (2, 2) no_output = CSMain drift_b32_luma (2, 2) no_output.
Proof.
  assert (Hsame : same_read_inputs drift_b32 drift_b32_luma)
    by (repeat split; reflexivity).
  split; [exact Hsame|]. split.
  - intros Heq. apply (f_equal (fun t => texel t 0 0)) in Heq.
    vm_compute in Heq. discriminate.
  - exact (proj1 (unused_inputs_do_not_interfere drift_b32 drift_b32_luma (2, 2)
                    no_output Hsame)).
Defined.

Lemma out_of_bounds_writes_nothing_witness :
  tex_width (MotionCurr drift_b32) <= (5, 0).1
  /\ CSMain drift_b32 (5, 0) no_output = no_output.
Proof.
  assert (Hout : tex_width (MotionCurr drift_b32) <= (5, 0).1) by (simpl; lia).
  split; [exact Hout|].
  exact (proj1 (out_of_bounds_writes_nothing drift_b32 (5, 0) no_output)
               (or_introl Hout)).
Defined.

Lemma neighbourhood_reads_edge_clamped_witness :
  nPos 4 4 (0, 3) (-1, 1) = (0, 3)
  /\ neighborhoodReads 4 4 (0, 3)
     = [(0, 2); (0, 2); (1, 2); (0, 3); (0, 3); (1, 3); (0, 3); (0, 3); (1, 3)].
Proof.
  split; [|vm_compute; reflexivity].
  assert (Ho : (-1, 1) ∈ offsets) by (apply offsets_spec; simpl; lia).
  exact (proj1 (proj1 (neighbourhood_reads_edge_clamped (const_tex 4 4 tt) (0, 3)
                         ltac:(simpl; lia) ltac:(simpl; lia)
                         ltac:(unfold INT_MAX; simpl; lia)
                         ltac:(unfold INT_MAX; simpl; lia)) (-1, 1) Ho)).
Defined.

(** The run of [creep] on binary32 ends as it does in exact arithmetic:
    valid history, [historyConf < 0.2], and a written motion of [(0, 0)]
    where the current motion is [(0.05, 0)]. *)
Example history_discard_b32 :
  validHistory creep_b32 (2, 2) = true
  /\ flt (historyConf creep_b32 (2, 2)) (flit 0.2) = true
  /\ MotionOut (CSMain creep_b32 (2, 2) no_output) !! (2, 2) = Some (flit 0, flit 0)
  /\ currMotion creep_b32 (2, 2) = (flit 0.05, flit 0)
  /\ ConfOut (CSMain creep_b32 (2, 2) no_output) !! (2, 2) = Some (flit 0.5).
Proof. repeat split; vm_compute; reflexivity. Qed.

(** The specification's concrete scenario at its blend weight: with no
    disagreement and a confident current frame, [alpha] is 0.94 times 0.9,
    rounded. *)
Example drift_alpha_b32 :
  alpha drift_b32 (2, 2) = fmul (flit 0.94) (flit 0.9).
Proof. vm_compute. reflexivity. Qed.

Lemma creep_in_bounds : in_bounds creep (2, 2).
Proof. unfold in_bounds; simpl; lia. Qed.

Lemma history_discard_witness :
  in_bounds creep (2, 2)
  /\ validHistory creep (2, 2) = true
  /\ flt (historyConf creep (2, 2)) (flit 0.2) = true
  /\ alpha creep (2, 2) = 0%R
  /\ ConfOut (CSMain creep (2, 2) no_output) !! (2, 2)
     = Some (currConf creep (2, 2)).
Proof.
  split; [exact creep_in_bounds|]. split; [exact creep_valid|].
  split; [exact creep_history_low|].
  pose proof (history_discard creep (2, 2) no_output creep_in_bounds creep_valid
                creep_history_low) as (Ha & _ & Hc & _).
  split; [exact Ha | exact Hc].
Defined.

Lemma clamp_containment_witness :
  in_bounds creep (2, 2)
  /\ ((minMotion creep (2, 2)%Z).1 <= (clampedHistory creep (2, 2)%Z).1
      <= (maxMotion creep (2, 2)%Z).1)%R.
Proof.
  split; [exact creep_in_bounds|].
  exact (proj1 (proj1 (clamp_containment creep (2, 2) creep_in_bounds
                         ltac:(unfold INT_MAX; simpl; lia)
                         ltac:(unfold INT_MAX; simpl; lia)))).
Defined.

Lemma rest_still : still rest.
Proof.
  unfold still, rest, INT_MAX; simpl.
  split; [lia|]. split; [auto|].
  split; [|split; [|reflexivity]]; split; intros x y _ _; simpl;
    rewrite ?lit_0, ?lit_1; reflexivity.
Qed.

Lemma zero_motion_fixpoint_witness :
  still rest
  /\ MotionOut (CSMain rest (3, 0) no_output) !! (3, 0) = Some (0%R, 0%R)
  /\ ConfOut (Dispatch (Nat.iter 5 (frame 1 1) rest) 1 1 no_output) !! (3, 0)
     = Some 1%R.
Proof.
  assert (Hin : in_bounds rest (3, 0)) by (unfold in_bounds; simpl; lia).
  pose proof (zero_motion_fixpoint rest 1 1 bilinear_preserves_const rest_still
                ltac:(simpl; lia) ltac:(simpl; lia)) as [Hpix Hrun].
  split; [exact rest_still|]. split.
  - exact (proj1 (Hpix (3, 0) no_output Hin)).
  - exact (proj2 (proj2 (Hrun 5%nat) (3, 0) Hin)).
Defined.

End Runs.

(** ** Further properties of the kernel in exact arithmetic *)

Section Bounds.
Implicit Types (r : Resources R) (id : Z * Z) (out : Outputs R).
Local Open Scope R_scope.

Ltac by_cases a b :=
  let H := fresh "Hcmp" in
  destruct (Rltb a b) eqn:H;
  [apply Rltb_true in H | apply Rltb_false in H].

Lemma alpha_unit r id : 0 <= alpha r id <= 1.
Proof.
  unfold alpha. cbn [flt fmul flit R_ops].
  generalize (historyConf r id) (currConf r id) (diffLen r id).
  intros hc cc d.
  by_cases hc (Q2R 0.2); by_cases (Q2R 0.9) cc; by_cases (Q2R 10.0) d;
    by_cases (Q2R 2.0) d; unfold Q2R in *; simpl in *; lra.
Qed.

Lemma lerp_between (a b t lo hi : R) :
  0 <= t <= 1 -> lo <= a <= hi -> lo <= b <= hi -> lo <= lerp a b t <= hi.
Proof.
  intros Ht Ha Hb. unfold lerp. cbn [fadd fsub fmul R_ops]. split; nra.
Qed.

Lemma box_contains_current r id :
  (minMotion r id).1 <= (currMotion r id).1 <= (maxMotion r id).1
  /\ (minMotion r id).2 <= (currMotion r id).2 <= (maxMotion r id).2.
Proof.
  destruct (bounds_fold r id) as (Hlo1 & Hlo2 & Hhi1 & Hhi2).
  cbv zeta in Hlo1, Hlo2, Hhi1, Hhi2.
  rewrite Hlo1, Hlo2, Hhi1, Hhi2.
  repeat split;
    first [apply (proj1 (fold_Rmin_spec _ _)) | apply (proj1 (fold_Rmax_spec _ _))].
Qed.

Lemma box_contains_clamped r id :
  (minMotion r id).1 <= (clampedHistory r id).1 <= (maxMotion r id).1
  /\ (minMotion r id).2 <= (clampedHistory r id).2 <= (maxMotion r id).2.
Proof.
  destruct (box_contains_current r id) as [H1 H2].
  unfold clampedHistory, clamp2, min2, max2. cbn [fst snd fmin fmax R_ops].
  split; apply clamp_between; lra.
Qed.

(** X1. The motion an invocation writes never leaves the bounding box of
    the current neighbourhood, unless it is the [(0, 0)] of the
    deadzone. *)
Theorem written_motion_in_box r id out :
  in_bounds r id ->
  exists m : float2 R,
    MotionOut (CSMain r id out) !! id = Some m
    /\ (m = (0, 0)
        \/ ((minMotion r id).1 <= m.1 <= (maxMotion r id).1
            /\ (minMotion r id).2 <= m.2 <= (maxMotion r id).2)).
Proof.
  intros Hin.
  destruct (box_contains_current r id) as [Hc1 Hc2].
  destruct (box_contains_clamped r id) as [Hh1 Hh2].
  destruct (validHistory r id) eqn:Hv.
  - exists (finalMotion r id). split; [by apply blend_motion|].
    unfold finalMotion. destruct (flt _ _).
    + left. unfold zero2. cbn [flit R_ops]. rewrite lit_0. reflexivity.
    + right. unfold blendedMotion, lerp2, add2, scale2, sub2. cbn [fst snd].
      pose proof (alpha_unit r id) as Ha.
      split; apply (lerp_between _ _ (alpha r id)); assumption.
  - exists (currMotion r id). split; [|by right].
    destruct Hin as [Hx Hy]. rewrite CSMain_inside by lia.
    rewrite shade_passthrough by exact Hv. apply lookup_store_motion.
Qed.

Lemma written_conf r id out :
  in_bounds r id ->
  ConfOut (CSMain r id out) !! id = Some (shade r id).2.
Proof.
  intros [Hx Hy]. rewrite CSMain_inside by lia. apply lookup_store_conf.
Qed.

Lemma shade_conf_between r id :
  Rmin (currConf r id) (historyConf r id) <= (shade r id).2
  <= Rmax (currConf r id) (historyConf r id).
Proof.
  pose proof (Rmin_l (currConf r id) (historyConf r id)).
  pose proof (Rmin_r (currConf r id) (historyConf r id)).
  pose proof (Rmax_l (currConf r id) (historyConf r id)).
  pose proof (Rmax_r (currConf r id) (historyConf r id)).
  unfold shade. destruct (validHistory r id); cbn [negb snd]; [|lra].
  unfold finalConf. apply lerp_between; [apply alpha_unit | lra | lra].
Qed.

(** X2. The confidence an invocation writes lies between the current
    confidence and the sampled history confidence. *)
Theorem written_conf_between r id out :
  in_bounds r id ->
  exists c : R,
    ConfOut (CSMain r id out) !! id = Some c
    /\ Rmin (currConf r id) (historyConf r id) <= c
       <= Rmax (currConf r id) (historyConf r id).
Proof.
  intros Hin. exists (shade r id).2.
  split; [by apply written_conf | apply shade_conf_between].
Qed.

(** The fractional weights of the bilinear filter lie in the unit
    interval. *)
Lemma frac_unit (x : R) : 0 <= x - IZR (up x - 1) <= 1.
Proof.
  destruct (archimed x) as [Hup Hlow]. rewrite minus_IZR. lra.
Qed.

Lemma bilinear_preserves_range : preserves_range (LinearClampState (F := R)).
Proof.
  intros t a b uv lod Hw Hh Hin. simpl. unfold bilinear_clamp. cbv zeta beta.
  assert (Hfetch : forall x y,
            a <= texel t (clampi x 0 (tex_width t - 1))
                         (clampi y 0 (tex_height t - 1)) <= b).
  { intros x y. rewrite !clampi_edge by assumption.
    apply Hin; apply edge_range; assumption. }
  cbn [ffloor fsub fmul of_int flit R_ops].
  repeat apply lerp_between; auto using frac_unit.
Qed.

(** X3. Confidence keeps its range: when the current confidence and every
    texel of the history confidence lie in [[a, b]], and the bound sampler
    stays within the range of the texels, the confidence written lies in
    [[a, b]]. *)
Theorem written_conf_in_range r id out (a b : R) :
  in_bounds r id ->
  preserves_range (LinearClamp r) ->
  (0 < tex_width (ConfHistory r))%Z -> (0 < tex_height (ConfHistory r))%Z ->
  within (ConfHistory r) a b ->
  a <= currConf r id <= b ->
  exists c : R, ConfOut (CSMain r id out) !! id = Some c /\ a <= c <= b.
Proof.
  intros Hin Hs Hw Hh Hhist Hcurr.
  assert (Hhc : a <= historyConf r id <= b)
    by (unfold historyConf, SampleLevel; apply Hs; assumption).
  exists (shade r id).2. split; [by apply written_conf|].
  destruct (shade_conf_between r id) as [Hlo Hhi].
  pose proof (Rmin_glb _ _ _ (proj1 Hcurr) (proj1 Hhc)).
  pose proof (Rmax_lub _ _ _ (proj2 Hcurr) (proj2 Hhc)). lra.
Qed.

Lemma pair_eq {A B} (p q : A * B) : p.1 = q.1 -> p.2 = q.2 -> p = q.
Proof. destruct p, q; simpl; congruence. Qed.

(** X4. Where the current motion is uniform over the nine neighbours of a
    pixel, the history has no say in the motion written: it is the current
    motion, or [(0, 0)] when the history is valid and the current motion is
    shorter than 0.1, whatever the history textures hold. *)
Theorem uniform_neighbourhood_ignores_history r id out
    (mh : Texture2D (float2 R)) (ch : Texture2D R) :
  in_bounds r id ->
  (tex_width (MotionCurr r) <= INT_MAX)%Z ->
  (tex_height (MotionCurr r) <= INT_MAX)%Z ->
  (forall o, o ∈ offsets -> neighbour (MotionCurr r) id o = currMotion r id) ->
  MotionOut (CSMain (with_history r mh ch) id out) !! id
  = Some (if validHistory r id && flt (length (currMotion r id)) (flit 0.1)
          then (0, 0) else currMotion r id).
Proof.
  intros Hin Hw Hh Hunif. set (r' := with_history r mh ch).
  assert (Hin' : in_bounds r' id) by exact Hin.
  assert (Hbox : minMotion r' id = currMotion r id
                 /\ maxMotion r' id = currMotion r id).
  { destruct (bounds_fold r id) as (Hlo1 & Hlo2 & Hhi1 & Hhi2).
    cbv zeta in Hlo1, Hlo2, Hhi1, Hhi2.
    rewrite (currMotion_texel r id Hin Hw Hh) in Hlo1, Hlo2, Hhi1, Hhi2.
    destruct Hin as [Hx Hy].
    rewrite (neighbourhood_values _ id fst) in Hlo1, Hhi1 by assumption.
    rewrite (neighbourhood_values _ id snd) in Hlo2, Hhi2 by assumption.
    destruct (extremum_of_neighbours (MotionCurr r) id fst Hx Hy)
      as [[_ (o1 & Ho1 & Hmin1)] [_ (o2 & Ho2 & Hmax1)]].
    destruct (extremum_of_neighbours (MotionCurr r) id snd Hx Hy)
      as [[_ (o3 & Ho3 & Hmin2)] [_ (o4 & Ho4 & Hmax2)]].
    change (minMotion r' id) with (minMotion r id).
    change (maxMotion r' id) with (maxMotion r id).
    split; apply pair_eq.
    - rewrite Hlo1, Hmin1, Hunif by assumption. reflexivity.
    - rewrite Hlo2, Hmin2, Hunif by assumption. reflexivity.
    - rewrite Hhi1, Hmax1, Hunif by assumption. reflexivity.
    - rewrite Hhi2, Hmax2, Hunif by assumption. reflexivity. }
  destruct Hbox as [Hlo Hhi].
  assert (Hclamp : clampedHistory r' id = currMotion r id).
  { unfold clampedHistory. rewrite Hlo, Hhi.
    unfold clamp2, min2, max2. cbn [fst snd fmin fmax R_ops].
    destruct (currMotion r id) as [cx cy]. cbn [fst snd].
    f_equal; apply Rmin_right, Rmax_r. }
  assert (Hblend : blendedMotion r' id = currMotion r id).
  { unfold blendedMotion. rewrite Hclamp.
    change (currMotion r' id) with (currMotion r id).
    destruct (currMotion r id) as [cx cy].
    unfold lerp2, add2, scale2, sub2. cbn [fst snd fadd fsub fmul R_ops].
    f_equal; ring. }
  change (validHistory r id) with (validHistory r' id).
  destruct (validHistory r' id) eqn:Hv.
  - etransitivity; [by apply blend_motion|].
    unfold finalMotion. rewrite Hblend. cbn [andb].
    destruct (flt _ _); [|reflexivity].
    unfold zero2. cbn [flit R_ops]. rewrite lit_0. reflexivity.
  - destruct Hin' as [Hx Hy]. rewrite CSMain_inside by lia.
    rewrite shade_passthrough by exact Hv. apply lookup_store_motion.
Qed.

(** X5. The clamp leaves a plausible history alone and changes every
    other: the clamped history is the sampled history exactly when the
    sampled history already lies in the bounding box. *)
Theorem clamp_is_identity_inside_box r id :
  clampedHistory r id = historyMotion r id
  <-> ((minMotion r id).1 <= (historyMotion r id).1 <= (maxMotion r id).1
       /\ (minMotion r id).2 <= (historyMotion r id).2 <= (maxMotion r id).2).
Proof.
  split.
  - intros Heq. rewrite <- Heq. apply box_contains_clamped.
  - intros [[Hl1 Hh1] [Hl2 Hh2]].
    unfold clampedHistory, clamp2, min2, max2. cbn [fst snd fmin fmax R_ops].
    destruct (historyMotion r id) as [hx hy]. cbn [fst snd] in *.
    rewrite !Rmax_left, !Rmin_left by assumption. reflexivity.
Qed.

(** The order of binary32 is transitive, NaNs excluded by the
    comparisons themselves. *)
Lemma SFltb_SFleb_trans (c d1 d2 : spec_float) :
  SFltb c d1 = true -> SFleb d1 d2 = true -> SFltb c d2 = true.
Proof.
  unfold SFltb, SFleb, SFcompare.
  destruct c as [sc | sc | | sc mc ec], d1 as [s1 | s1 | | s1 m1 e1],
    d2 as [s2 | s2 | | s2 m2 e2];
    try destruct sc; try destruct s1; try destruct s2;
    try discriminate; try reflexivity;
    change (Pos.compare_cont Eq) with Pos.compare;
    repeat match goal with
           | |- context [Z.compare ?x ?y] => destruct (Z.compare_spec x y)
           | |- context [Pos.compare ?x ?y] => destruct (Pos.compare_spec x y)
           end;
    cbn [CompOpp]; try discriminate; try reflexivity; intros _ _; lia.
Qed.

(** X6. More disagreement never earns the history more trust: between two
    pixels with the same current and history confidence, the one whose
    clamped history is further from its current motion has the smaller or
    equal blend weight.  In exact arithmetic the distances are Euclidean;
    on binary32 they are the rounded distances the kernel computes. *)
Theorem alpha_decreases_with_disagreement :
  (forall (r1 r2 : Resources R) (id1 id2 : Z * Z),
     currConf r1 id1 = currConf r2 id2 ->
     historyConf r1 id1 = historyConf r2 id2 ->
     distance (clampedHistory r1 id1) (currMotion r1 id1)
     <= distance (clampedHistory r2 id2) (currMotion r2 id2) ->
     alpha r2 id2 <= alpha r1 id1)
  /\ (forall (r1 r2 : Resources spec_float) (id1 id2 : Z * Z),
       currConf r1 id1 = currConf r2 id2 ->
       historyConf r1 id1 = historyConf r2 id2 ->
       SFleb (length (sub2 (clampedHistory r1 id1) (currMotion r1 id1)))
             (length (sub2 (clampedHistory r2 id2) (currMotion r2 id2))) = true ->
       SFleb (alpha r2 id2) (alpha r1 id1) = true).
Proof.
  split; intros r1 r2 id1 id2.
  - change (distance (clampedHistory r1 id1) (currMotion r1 id1))
      with (diffLen r1 id1).
    change (distance (clampedHistory r2 id2) (currMotion r2 id2))
      with (diffLen r2 id2).
    unfold alpha. cbn [flt fmul flit R_ops].
    intros <- <-.
    generalize (historyConf r1 id1) (currConf r1 id1) (diffLen r1 id1)
               (diffLen r2 id2).
    intros hc cc d1 d2 Hd.
    by_cases hc (Q2R 0.2); by_cases (Q2R 0.9) cc;
      by_cases (Q2R 10.0) d1; by_cases (Q2R 2.0) d1;
      by_cases (Q2R 10.0) d2; by_cases (Q2R 2.0) d2;
      unfold Q2R in *; simpl in *; lra.
  - change (length (sub2 (clampedHistory r1 id1) (currMotion r1 id1)))
      with (diffLen r1 id1).
    change (length (sub2 (clampedHistory r2 id2) (currMotion r2 id2)))
      with (diffLen r2 id2).
    unfold alpha. intros <- <-.
    generalize (historyConf r1 id1) (currConf r1 id1) (diffLen r1 id1)
               (diffLen r2 id2).
    intros hc cc d1 d2 Hd.
    assert (H10 : flt (flit 10.0) d1 = true -> flt (flit 10.0) d2 = true)
      by (intros Hc; exact (SFltb_SFleb_trans _ d1 d2 Hc Hd)).
    assert (H2 : flt (flit 2.0) d1 = true -> flt (flit 2.0) d2 = true)
      by (intros Hc; exact (SFltb_SFleb_trans _ d1 d2 Hc Hd)).
    clear Hd. revert H10 H2.
    destruct (flt (flit 10.0) d1); destruct (flt (flit 10.0) d2);
      destruct (flt (flit 2.0) d1); destruct (flt (flit 2.0) d2);
      intros H10 H2;
      try (specialize (H10 eq_refl); discriminate);
      try (specialize (H2 eq_refl); discriminate);
      destruct (flt hc (flit 0.2)); destruct (flt (flit 0.9) cc);
      vm_compute; reflexivity.
Qed.

End Bounds.

(** ** Further properties of runs of the kernel, for every scalar model *)

Section Schedules.
Context {F : Type} `{FloatOps F}.
Implicit Types (r : Resources F) (id p : Z * Z) (o : Outputs F).

Lemma Outputs_eq o1 o2 :
  MotionOut o1 = MotionOut o2 -> ConfOut o1 = ConfOut o2 -> o1 = o2.
Proof. destruct o1, o2; simpl. intros -> ->. reflexivity. Qed.

(** X8. The outputs of a run of invocations depend on which invocations
    run, not on their order nor on how often each runs. *)
Theorem invocation_order_is_irrelevant r (l1 l2 : list (Z * Z)) o :
  (forall p, p ∈ l1 <-> p ∈ l2) ->
  foldl (fun o id => CSMain r id o) o l1 = foldl (fun o id => CSMain r id o) o l2.
Proof.
  intros Hsame.
  assert (Hlook : forall p,
    MotionOut (foldl (fun o id => CSMain r id o) o l1) !! p
    = MotionOut (foldl (fun o id => CSMain r id o) o l2) !! p
    /\ ConfOut (foldl (fun o id => CSMain r id o) o l1) !! p
       = ConfOut (foldl (fun o id => CSMain r id o) o l2) !! p).
  { intros p.
    destruct (run_lookup r l1 p o) as [Hin1 Hout1].
    destruct (run_lookup r l2 p o) as [Hin2 Hout2].
    destruct (decide (p ∈ l1 /\ p.1 < tex_width (MotionCurr r)
                      /\ p.2 < tex_height (MotionCurr r))) as [Hp | Hp].
    - destruct (Hin1 Hp) as [-> ->].
      destruct Hin2 as [-> ->]; [|split; reflexivity].
      destruct Hp as (Hl & Hx & Hy). split; [by apply Hsame | auto].
    - destruct (Hout1 Hp) as [-> ->].
      destruct Hout2 as [-> ->]; [|split; reflexivity].
      intros (Hl & Hx & Hy). apply Hp. split; [by apply Hsame | auto]. }
  apply Outputs_eq; apply map_eq; intros p; apply Hlook.
Qed.

(** X9. A dispatch over fresh outputs defines exactly the pixels of the
    image that its groups reach, each with the pair shaded for it; no texel
    outside the image is defined, however many groups are dispatched. *)
Theorem Dispatch_defines_the_image r gx gy p :
  let w := Z.min (tex_width (MotionCurr r)) (16 * gx) in
  let h := Z.min (tex_height (MotionCurr r)) (16 * gy) in
  MotionOut (Dispatch r gx gy no_output) !! p
  = (if in_range w h p then Some (shade r p).1 else None)
  /\ ConfOut (Dispatch r gx gy no_output) !! p
     = (if in_range w h p then Some (shade r p).2 else None).
Proof.
  intros w h. unfold Dispatch.
  destruct (run_lookup r (threads gx gy) p no_output) as [Hin Hout].
  unfold in_range.
  destruct (Z.leb_spec 0 p.1); destruct (Z.ltb_spec p.1 w);
    destruct (Z.leb_spec 0 p.2); destruct (Z.ltb_spec p.2 h); cbn [andb];
    try (apply Hin; split; [apply threads_spec|]; lia);
    (destruct Hout as [-> ->]; [|split; apply lookup_empty]);
    intros (Hl & Hx & Hy); apply threads_spec in Hl; lia.
Qed.


End Schedules.

Section Interior.

Lemma edge_inside n v : 0 <= v < n -> edge n v = v.
Proof.
  intros Hv. unfold edge.
  destruct (Z.ltb_spec v 0); [lia|]. destruct (Z.ltb_spec (n - 1) v); lia.
Qed.

(** X11. Away from the border the clamp changes nothing: for a pixel with
    a full ring of neighbours the nine addresses are the pixel's
    coordinate plus the loop counters, and no texel is loaded twice. *)
Theorem interior_reads_are_the_block (w h : Z) (id : Z * Z) :
  1 <= id.1 <= w - 2 -> 1 <= id.2 <= h - 2 ->
  w <= INT_MAX -> h <= INT_MAX ->
  neighborhoodReads w h id = map (fun o => (id.1 + o.1, id.2 + o.2)) offsets
  /\ NoDup (neighborhoodReads w h id).
Proof.
  intros Hx Hy Hw Hh.
  assert (Hreads : neighborhoodReads w h id
                   = map (fun o => (id.1 + o.1, id.2 + o.2)) offsets).
  { unfold neighborhoodReads. apply map_ext_in. intros o Ho.
    apply list_elem_of_In in Ho.
    rewrite nPos_edge by (assumption || lia).
    apply offsets_spec in Ho. rewrite !edge_inside by lia. reflexivity. }
  split; [exact Hreads|]. rewrite Hreads.
  assert (Hinj : Inj eq eq (fun o : Z * Z => (id.1 + o.1, id.2 + o.2))).
  { intros [a b] [c d] Heq. simpl in Heq. inversion Heq. f_equal; lia. }
  apply (NoDup_fmap_2 _).
  apply (bool_decide_unpack _). vm_compute. exact I.
Qed.

End Interior.

(** ** The script *)

Section ScriptRuns.
Import Script.
Local Open Scope string_scope.

Implicit Types (pf : platform) (w : world).

Lemma bind_inl {A B} (m : M A) (k : A -> M B) (w w' : world) (a : A) :
  m w = (w', inl a) -> (m ≫= k) w = k a w'.
Proof. intros Hm. unfold mbind, M_bind, bind. rewrite Hm. reflexivity. Qed.

Lemma bind_inr {A B} (m : M A) (k : A -> M B) (w w' : world) (h : halt) :
  m w = (w', inr h) -> (m ≫= k) w = (w', inr h).
Proof. intros Hm. unfold mbind, M_bind, bind. rewrite Hm. reflexivity. Qed.

Lemma path_exists_found (w : world) (p : string) (n : node) :
  fs w !! p = Some n -> path_exists p w = (w, inl true).
Proof.
  intros Hlook. unfold path_exists.
  rewrite bool_decide_eq_true_2 by (rewrite Hlook; eauto). reflexivity.
Qed.

Lemma path_exists_missing (w : world) (p : string) :
  fs w !! p = None -> path_exists p w = (w, inl false).
Proof.
  intros Hlook. unfold path_exists.
  rewrite bool_decide_eq_false_2; [reflexivity|].
  rewrite Hlook. intros [n Hn]. discriminate.
Qed.

Lemma main_missing pf w :
  fs w !! file_path = None ->
  main pf w = ({| fs := fs w;
                  stdout := stdout w ++ ["Error: File not found at " ++ file_path] |},
               inr (Exit 1)).
Proof.
  intros Hlook. unfold main.
  rewrite (bind_inl _ _ w w false) by (by apply path_exists_missing).
  cbn [negb]. apply bind_inr.
  eapply eq_trans; [apply bind_inl; reflexivity | reflexivity].
Qed.

Lemma main_directory pf w :
  fs w !! file_path = Some Dir -> main pf w = (w, inr OSError).
Proof.
  intros Hlook. unfold main.
  rewrite (bind_inl _ _ w w true) by (by eapply path_exists_found).
  cbn [negb]. rewrite (bind_inl _ _ w w tt) by reflexivity.
  apply bind_inr. unfold read_text. rewrite Hlook. reflexivity.
Qed.

(** The run on a file, up to the read: the statements after it run on the
    text read, and a file that cannot be opened or decoded stops the
    run. *)
Lemma main_read pf w (old : string) :
  fs w !! file_path = Some (File old) ->
  main pf w
  = (if readable pf file_path then
       match decode pf old with
       | Some t =>
           (print_text pf (text_of "Current file start: " ++ slice_to 50 t)%list;;
            write_text pf file_path (text_of new_content);;
            print "Successfully overwrote MotionTemporal.hlsl with TAA v2 logic.") w
       | None => (w, inr UnicodeError)
       end
     else (w, inr OSError)).
Proof.
  intros Hlook. unfold main.
  rewrite (bind_inl _ _ w w true) by (by eapply path_exists_found).
  cbn [negb]. rewrite (bind_inl _ _ w w tt) by reflexivity.
  destruct (readable pf file_path) eqn:Hr;
    [destruct (decode pf old) as [t|] eqn:Hd|].
  - rewrite (bind_inl _ _ w w t)
      by (unfold read_text; rewrite Hlook, Hr, Hd; reflexivity).
    reflexivity.
  - apply bind_inr. unfold read_text. rewrite Hlook, Hr, Hd. reflexivity.
  - apply bind_inr. unfold read_text. rewrite Hlook, Hr. reflexivity.
Qed.

(** The statements after the read, case by case. *)
Lemma main_after_read pf w (old : string) (t : text) :
  fs w !! file_path = Some (File old) ->
  (print_text pf (text_of "Current file start: " ++ slice_to 50 t)%list;;
   write_text pf file_path (text_of new_content);;
   print "Successfully overwrote MotionTemporal.hlsl with TAA v2 logic.") w
  = match render pf (text_of "Current file start: " ++ slice_to 50 t)%list with
    | None => (w, inr UnicodeError)
    | Some line =>
        if writable pf file_path then
          match encode pf (text_of new_content) with
          | Some content =>
              ({| fs := <[file_path := File content]> (fs w);
                  stdout := ((stdout w ++ [line])
                             ++ ["Successfully overwrote MotionTemporal.hlsl with TAA v2 logic."])%list |},
               inl tt)
          | None =>
              ({| fs := <[file_path := File ""]> (fs w);
                  stdout := (stdout w ++ [line])%list |},
               inr UnicodeError)
          end
        else ({| fs := fs w; stdout := (stdout w ++ [line])%list |}, inr OSError)
    end.
Proof.
  intros Hlook.
  destruct (render pf (text_of "Current file start: " ++ slice_to 50 t)%list)
    as [line|] eqn:Hrender.
  - rewrite (bind_inl _ _ w {| fs := fs w; stdout := (stdout w ++ [line])%list |} tt)
      by (unfold print_text; rewrite Hrender; reflexivity).
    destruct (writable pf file_path) eqn:Hw;
      [destruct (encode pf (text_of new_content)) as [content|] eqn:He|].
    + rewrite (bind_inl _ _ _
                 {| fs := <[file_path := File content]> (fs w);
                    stdout := (stdout w ++ [line])%list |} tt)
        by (unfold write_text; cbn [fs stdout]; rewrite Hlook, Hw, He; reflexivity).
      reflexivity.
    + apply bind_inr. unfold write_text. cbn [fs stdout].
      rewrite Hlook, Hw, He. reflexivity.
    + apply bind_inr. unfold write_text. cbn [fs stdout].
      rewrite Hlook, Hw. reflexivity.
  - apply bind_inr. unfold print_text. rewrite Hrender. reflexivity.
Qed.

Lemma main_file pf w (old content line : string) (t : text) :
  fs w !! file_path = Some (File old) ->
  readable pf file_path = true ->
  decode pf old = Some t ->
  render pf (text_of "Current file start: " ++ slice_to 50 t)%list = Some line ->
  writable pf file_path = true ->
  encode pf (text_of new_content) = Some content ->
  main pf w
  = ({| fs := <[file_path := File content]> (fs w);
        stdout := ((stdout w ++ [line])
                   ++ ["Successfully overwrote MotionTemporal.hlsl with TAA v2 logic."])%list |},
     inl tt).
Proof.
  intros Hlook Hr Hd Hrender Hw He.
  rewrite (main_read pf w old Hlook), Hr, Hd.
  rewrite (main_after_read pf w old t Hlook), Hrender, Hw, He. reflexivity.
Qed.

(** Whatever happens, a run on a file changes at most the content of the
    file, keeps what was printed, and ends normally only with the encoded
    shader text in the file. *)
Lemma main_file_cases pf w (old : string) :
  fs w !! file_path = Some (File old) ->
  exists (content : string) (more : list string),
    fs (main pf w).1 = <[file_path := File content]> (fs w)
    /\ stdout (main pf w).1 = (stdout w ++ more)%list
    /\ ((main pf w).2 = inl tt ->
        readable pf file_path = true /\ writable pf file_path = true
        /\ encode pf (text_of new_content) = Some content)
    /\ (content = old
        \/ content = default "" (encode pf (text_of new_content))).
Proof.
  intros Hlook. rewrite (main_read pf w old Hlook).
  assert (Hsame : fs w = <[file_path := File old]> (fs w))
    by (symmetry; by apply insert_id).
  destruct (readable pf file_path) eqn:Hr;
    [destruct (decode pf old) as [t|] eqn:Hd|].
  - rewrite (main_after_read pf w old t Hlook).
    destruct (render pf _) as [line|];
      [destruct (writable pf file_path) eqn:Hw;
       [destruct (encode pf (text_of new_content)) as [content|] eqn:He|]|];
      cbn [fst snd fs stdout].
    + exists content, [line; "Successfully overwrote MotionTemporal.hlsl with TAA v2 logic."].
      split; [reflexivity|]. split; [by rewrite <- app_assoc|]. split; auto.
    + exists "", [line]. split; [reflexivity|]. split; [reflexivity|].
      split; [discriminate | auto].
    + exists old, [line]. split; [exact Hsame|]. split; [reflexivity|].
      split; [discriminate | auto].
    + exists old, []. split; [exact Hsame|]. split; [by rewrite app_nil_r|].
      split; [discriminate | auto].
  - exists old, []. cbn [fst snd]. split; [exact Hsame|].
    split; [by rewrite app_nil_r|]. split; [discriminate | auto].
  - exists old, []. cbn [fst snd]. split; [exact Hsame|].
    split; [by rewrite app_nil_r|]. split; [discriminate | auto].
Qed.


(** X12. Without a file to overwrite the script changes nothing: when the
    path is missing it reports the error and exits with status 1, and when
    the path is a directory it stops on the [OSError] of [open]; either
    way the file system is left as it was and no file is created. *)
Theorem script_fails_without_file pf (w : world) :
  (fs w !! file_path = None ->
     main pf w
     = ({| fs := fs w;
           stdout := stdout w ++ ["Error: File not found at " ++ file_path] |},
        inr (Exit 1)))
  /\ (fs w !! file_path = Some Dir -> main pf w = (w, inr OSError))
  /\ ((forall old, fs w !! file_path <> Some (File old)) ->
      fs (main pf w).1 = fs w /\ (main pf w).2 <> inl tt).
Proof.
  split; [apply main_missing|]. split; [apply main_directory|].
  intros Hnofile. destruct (fs w !! file_path) as [[old|]|] eqn:Hlook.
  - exfalso. by apply (Hnofile old).
  - rewrite main_directory by assumption. split; [reflexivity | discriminate].
  - rewrite main_missing by assumption. split; [reflexivity | discriminate].
Qed.

(** X13. When the path holds a file that can be opened for reading and
    for writing, whose bytes decode to a text, and the platform can print
    the start of that text and encode the shader text, the script replaces
    the bytes of the file by the encoded shader text, whatever they were,
    prints the line with the start of the old text and then the success
    line, and ends normally.  The start printed is the first 50 characters
    of the old text, the whole text when it is shorter.  When the file
    cannot be opened for reading, or its bytes do not decode, the run
    stops before it prints or writes anything. *)
Theorem script_overwrites_file pf (w : world) (old : string) :
  fs w !! file_path = Some (File old) ->
  (forall (t : text) (line content : string),
     readable pf file_path = true ->
     decode pf old = Some t ->
     render pf (text_of "Current file start: " ++ slice_to 50 t)%list = Some line ->
     writable pf file_path = true ->
     encode pf (text_of new_content) = Some content ->
     main pf w
     = ({| fs := <[file_path := File content]> (fs w);
           stdout := ((stdout w ++ [line])
                      ++ ["Successfully overwrote MotionTemporal.hlsl with TAA v2 logic."])%list |},
        inl tt)
     /\ List.length (slice_to 50 t) = Nat.min 50 (List.length t)
     /\ slice_to 50 t `prefix_of` t)
  /\ (readable pf file_path = false -> main pf w = (w, inr OSError))
  /\ (readable pf file_path = true -> decode pf old = None ->
      main pf w = (w, inr UnicodeError))
  /\ (forall t line,
        readable pf file_path = true -> decode pf old = Some t ->
        render pf (text_of "Current file start: " ++ slice_to 50 t)%list = Some line ->
        writable pf file_path = false ->
        main pf w
        = ({| fs := fs w; stdout := (stdout w ++ [line])%list |}, inr OSError)).
Proof.
  intros Hlook. split; [|split; [|split]].
  - intros t line content Hr Hd Hrender Hw He.
    split; [by apply (main_file pf w old content line t)|].
    unfold slice_to. split; [apply length_take | apply prefix_take].
  - intros Hr. rewrite (main_read pf w old Hlook), Hr. reflexivity.
  - intros Hr Hd. rewrite (main_read pf w old Hlook), Hr, Hd. reflexivity.
  - intros t line Hr Hd Hrender Hw.
    rewrite (main_read pf w old Hlook), Hr, Hd.
    rewrite (main_after_read pf w old t Hlook), Hrender, Hw. reflexivity.
Qed.

(** X14. The script touches one path only, on every platform and however
    the run ends: every other path keeps its node, the set of paths is the
    same after the run as before, and what was printed before the run is
    still there. *)
Theorem script_touches_only_file_path pf (w : world) :
  (forall p, p <> file_path -> fs (main pf w).1 !! p = fs w !! p)
  /\ dom (fs (main pf w).1) = dom (fs w)
  /\ exists more : list string, stdout (main pf w).1 = (stdout w ++ more)%list.
Proof.
  destruct (fs w !! file_path) as [[old|]|] eqn:Hlook.
  - destruct (main_file_cases pf w old Hlook) as (content & more & Hfs & Hout & _).
    rewrite Hfs. split; [intros p Hp; by apply lookup_insert_ne|].
    split; [apply dom_insert_lookup_L; by eexists | by exists more].
  - rewrite main_directory by assumption. cbn [fst].
    split; [reflexivity|]. split; [reflexivity|].
    exists []. by rewrite app_nil_r.
  - rewrite main_missing by assumption. cbn [fst fs stdout].
    split; [reflexivity|]. split; [reflexivity|]. by eexists.
Qed.


End ScriptRuns.

(** ** More runs *)

Section MoreRuns.

Lemma written_motion_in_box_witness :
  in_bounds creep (2, 2)%Z
  /\ exists m : float2 R,
       MotionOut (CSMain creep (2, 2)%Z no_output) !! (2, 2) = Some m
       /\ (m = (0%R, 0%R)
           \/ (((minMotion creep (2, 2)%Z).1 <= m.1 <= (maxMotion creep (2, 2)%Z).1)%R
               /\ ((minMotion creep (2, 2)%Z).2 <= m.2 <= (maxMotion creep (2, 2)%Z).2)%R)).
Proof.
  split; [exact creep_in_bounds|].
  exact (written_motion_in_box creep (2, 2)%Z no_output creep_in_bounds).
Defined.

Lemma written_conf_between_witness :
  in_bounds creep (2, 2)%Z
  /\ exists c : R,
       ConfOut (CSMain creep (2, 2)%Z no_output) !! (2, 2) = Some c
       /\ (Rmin (currConf creep (2, 2)%Z) (historyConf creep (2, 2)%Z) <= c
           <= Rmax (currConf creep (2, 2)%Z) (historyConf creep (2, 2)%Z))%R.
Proof.
  split; [exact creep_in_bounds|].
  exact (written_conf_between creep (2, 2)%Z no_output creep_in_bounds).
Defined.

Lemma creep_history_within : within (ConfHistory creep) 0 1.
Proof. intros x y _ _. simpl. rewrite lit_0. lra. Qed.

Lemma creep_conf_within : (0 <= currConf creep (2, 2)%Z <= 1)%R.
Proof.
  unfold creep. rewrite scene_currConf by (unfold INT_MAX; simpl; lia).
  cbn [flit R_ops]. unfold Q2R; simpl. lra.
Qed.

Lemma written_conf_in_range_witness :
  in_bounds creep (2, 2)%Z
  /\ within (ConfHistory creep) 0 1
  /\ (0 <= currConf creep (2, 2)%Z <= 1)%R
  /\ exists c : R,
       ConfOut (CSMain creep (2, 2)%Z no_output) !! (2, 2) = Some c
       /\ (0 <= c <= 1)%R.
Proof.
  split; [exact creep_in_bounds|]. split; [exact creep_history_within|].
  split; [exact creep_conf_within|].
  exact (written_conf_in_range creep (2, 2)%Z no_output 0 1 creep_in_bounds
           bilinear_preserves_range ltac:(simpl; lia) ltac:(simpl; lia)
           creep_history_within creep_conf_within).
Defined.

Lemma creep_uniform o :
  o ∈ offsets -> neighbour (MotionCurr creep) (2, 2) o = currMotion creep (2, 2)%Z.
Proof.
  intros _. unfold creep.
  rewrite scene_currMotion by (unfold INT_MAX; simpl; lia). reflexivity.
Qed.

Lemma uniform_neighbourhood_ignores_history_witness :
  in_bounds creep (2, 2)%Z
  /\ MotionOut (CSMain (with_history creep (MotionCurr rest) (ConfCurr rest))
                       (2, 2) no_output) !! (2, 2)
     = Some (if validHistory creep (2, 2)%Z
                && flt (length (currMotion creep (2, 2)%Z)) (flit 0.1)
             then (0%R, 0%R) else currMotion creep (2, 2)%Z).
Proof.
  split; [exact creep_in_bounds|].
  exact (uniform_neighbourhood_ignores_history creep (2, 2)%Z no_output
           (MotionCurr rest) (ConfCurr rest) creep_in_bounds
           ltac:(unfold INT_MAX; simpl; lia) ltac:(unfold INT_MAX; simpl; lia)
           creep_uniform).
Defined.

Lemma alpha_decreases_with_disagreement_witness :
  (diffLen step_near_b32 (1, 0) = flit 5 /\ diffLen step_far_b32 (1, 0) = flit 12)
  /\ (alpha step_near_b32 (1, 0) = flit 0.8 /\ alpha step_far_b32 (1, 0) = flit 0.5)
  /\ SFleb (alpha step_far_b32 (1, 0)) (alpha step_near_b32 (1, 0)) = true.
Proof.
  split; [split; vm_compute; reflexivity|].
  split; [split; vm_compute; reflexivity|].
  apply (proj2 alpha_decreases_with_disagreement step_near_b32 step_far_b32
               (1, 0) (1, 0)); vm_compute; reflexivity.
Defined.

Lemma invocation_order_is_irrelevant_witness :
  foldl (fun o id => CSMain drift_b32 id o) no_output [(0, 0); (1, 0)]
  = foldl (fun o id => CSMain drift_b32 id o) no_output [(1, 0); (0, 0); (1, 0)].
Proof.
  apply (invocation_order_is_irrelevant drift_b32).
  intros p. rewrite !elem_of_cons, !elem_of_nil. tauto.
Defined.


Lemma interior_reads_are_the_block_witness :
  neighborhoodReads 4 4 (1, 2)
  = map (fun o => ((1, 2).1 + o.1, (1, 2).2 + o.2)) offsets
  /\ NoDup (neighborhoodReads 4 4 (1, 2)).
Proof.
  exact (interior_reads_are_the_block 4 4 (1, 2)
           ltac:(simpl; lia) ltac:(simpl; lia)
           ltac:(unfold INT_MAX; simpl; lia) ltac:(unfold INT_MAX; simpl; lia)).
Defined.

Lemma script_fails_without_file_witness :
  Script.fs {| Script.fs := ∅; Script.stdout := [] |} !! Script.file_path = None
  /\ (Script.main Script.latin1 {| Script.fs := ∅; Script.stdout := [] |}).2
     = inr (Script.Exit 1).
Proof.
  assert (Hnone : Script.fs {| Script.fs := ∅; Script.stdout := [] |}
                  !! Script.file_path = None) by apply lookup_empty.
  split; [exact Hnone|].
  exact (f_equal snd (proj1 (script_fails_without_file Script.latin1 _) Hnone)).
Defined.

Lemma latin1_encodes_shader :
  Script.encode Script.latin1 (Script.text_of Script.new_content)
  = Some Script.new_content.
Proof. vm_compute. reflexivity. Qed.

Lemma script_overwrites_file_witness :
  let w := {| Script.fs := {[ Script.file_path := Script.File "float4 old;" ]};
              Script.stdout := [] |} in
  Script.fs w !! Script.file_path = Some (Script.File "float4 old;")
  /\ Script.main Script.latin1 w
     = ({| Script.fs := <[Script.file_path := Script.File Script.new_content]>
                          (Script.fs w);
           Script.stdout :=
             ["Current file start: float4 old;";
              "Successfully overwrote MotionTemporal.hlsl with TAA v2 logic."] |},
        inl tt).
Proof.
  intros w.
  assert (Hfile : Script.fs w !! Script.file_path
                  = Some (Script.File "float4 old;")) by apply lookup_singleton_eq.
  split; [exact Hfile|].
  exact (proj1 (proj1 (script_overwrites_file Script.latin1 w "float4 old;" Hfile)
                  (Script.text_of "float4 old;")
                  "Current file start: float4 old;" Script.new_content
                  eq_refl eq_refl eq_refl eq_refl latin1_encodes_shader)).
Defined.

End MoreRuns.
